(** * fms_lmm.h : the LIBOR market model curve operations

    A shallow embedding of [fms::lmm] (src/fms_lmm/fms_lmm.h) and the
    properties its specification states about it.

    Modelling choices.
    - The template number types [T], [F] and [S] are read as the real
      numbers: arithmetic is exact, [exp], [cos] and [sin] are the real
      functions.  Rounding is therefore outside the model; the one
      floating-point effect modelled is the underflow of [exp] to zero, for
      [par_coupon] with its exponential left open.
    - The three caller-owned arrays are three buffers (lists of reals); a
      pointer into an array is an offset into its buffer, so that the
      pointer-advancing window of [advance_futures] and the storage in
      front of the returned view are both visible.
    - Reading or writing outside a buffer is undefined in C++; here it is
      the fault [OutOfBounds].  A real division by zero is the fault
      [DivByZero].
    - The process-wide engine [dre], seen through
      [std::normal_distribution], is a sequence of standard-normal
      variates and a cursor into it.
    - [size_t] counters only count down to zero or up to [n]; they are
      natural numbers.
    - [u] and [alpha], passed by const reference, are taken as values: they
      do not alias an entry of the buffers. *)

From Stdlib Require Import Reals Lra Lia.
From stdpp Require Import base list.

Open Scope R_scope.

(** ** Machine state *)

Record state : Type := State {
  mem_t : list R;        (* backing array of the knot times t[] *)
  mem_f : list R;        (* backing array of the rates f[] / phi[] *)
  mem_sigma : list R;    (* backing array of the volatilities sigma[] *)
  variates : nat -> R;   (* what N(dre) yields, call after call *)
  cursor : nat           (* how many variates dre has produced *)
}.

Inductive fault : Type := OutOfBounds | DivByZero.

Inductive result (A : Type) : Type :=
| Ok (a : A) (s : state)
| Fault (e : fault).
Arguments Ok {A} a s.
Arguments Fault {A} e.

(** State and error monad of the embedding. *)
Definition M (A : Type) : Type := state -> result A.

Definition ret {A} (a : A) : M A := fun s => Ok a s.

Definition bind {A B} (k : A -> M B) (m : M A) : M B :=
  fun s => match m s with
           | Ok a s' => k a s'
           | Fault e => Fault e
           end.

#[export] Instance M_ret : MRet M := @ret.
#[export] Instance M_bind : MBind M := @bind.

(** Total read of a buffer, used to state results. *)
Definition rd (l : list R) (p : nat) : R := nth p l 0.

Definition load (buf : state -> list R) (p : nat) : M R :=
  fun s => match buf s !! p with
           | Some x => Ok x s
           | None => Fault OutOfBounds
           end.

Definition store_t (p : nat) (v : R) : M unit :=
  fun s => if decide (p < length (mem_t s))%nat
           then Ok tt (State (<[p:=v]> (mem_t s)) (mem_f s) (mem_sigma s)
                             (variates s) (cursor s))
           else Fault OutOfBounds.

Definition store_f (p : nat) (v : R) : M unit :=
  fun s => if decide (p < length (mem_f s))%nat
           then Ok tt (State (mem_t s) (<[p:=v]> (mem_f s)) (mem_sigma s)
                             (variates s) (cursor s))
           else Fault OutOfBounds.

(** [N(dre)]: the next standard-normal variate. *)
Definition dre : M R :=
  fun s => Ok (variates s (cursor s))
              (State (mem_t s) (mem_f s) (mem_sigma s)
                     (variates s) (S (cursor s))).

(** [(x) / (y)] on reals: undefined when [y] is zero. *)
Definition divide (x y : R) : M R :=
  fun s => if Req_dec_T y 0 then Fault DivByZero else Ok (x / y) s.

(** [for (size_t i = i0; i < i0 + k; ++i) body(i)] *)
Fixpoint for_loop (k i : nat) (body : nat -> M unit) : M unit :=
  match k with
  | O => mret tt
  | S k' => body i;; for_loop k' (S i) body
  end.

(** ** The functions of fms::lmm *)

(** Lines 24-31. *)
Definition to_futures (n t f sigma : nat) : M unit :=
  for_loop n 0 (fun i =>
    si ← load mem_sigma (sigma + i);
    ti ← load mem_t (t + i);
    fi ← load mem_f (f + i);
    store_f (f + i) (fi + si * si * ti * ti / 2)).

(** Lines 34-40. *)
Definition to_forwards (n t phi sigma : nat) : M unit :=
  for_loop n 0 (fun i =>
    si ← load mem_sigma (sigma + i);
    ti ← load mem_t (t + i);
    phi_i ← load mem_f (phi + i);
    store_f (phi + i) (phi_i - si * si * ti * ti / 2)).

(** A curve view: the count [n] and the three pointers, which
    [advance_futures] and [advance] take by reference and rebind. *)
Record view : Type := View {
  v_n : nat;
  v_t : nat;
  v_f : nat;
  v_sigma : nat
}.

(** Lines 53-58:
    [while (n > 0 and *t <= u) { --n; ++t; ++phi; ++sigma; }] *)
Fixpoint window (u : R) (n t phi sigma : nat) : M view :=
  match n with
  | O => mret (View O t phi sigma)
  | S n' =>
      t0 ← load mem_t t;
      if Rle_dec t0 u
      then window u n' (S t) (S phi) (S sigma)
      else mret (View n t phi sigma)
  end.

(** Lines 62-66, with the two variates already drawn. *)
Definition evolve (u alpha B0 B1 : R) (v : view) : M unit :=
  for_loop (v_n v) 0 (fun i =>
    ti ← load mem_t (v_t v + i);
    store_t (v_t v + i) (ti - u);;
    ti' ← load mem_t (v_t v + i);
    let Bu := B0 * cos (alpha * ti') + B1 * sin (alpha * ti') in
    si ← load mem_sigma (v_sigma v + i);
    phi_i ← load mem_f (v_f v + i);
    store_f (v_f v + i) (phi_i * exp (si * Bu - si * si * u / 2))).

(** Lines 44-69. *)
Definition advance_futures (u : R) (n t phi sigma : nat) (alpha : R) : M view :=
  B0 ← dre;
  B1 ← dre;
  v ← window u n t phi sigma;
  evolve u alpha B0 B1 v;;
  mret v.

(** Lines 72-80. *)
Definition advance (u : R) (n t f sigma : nat) (alpha : R) : M view :=
  to_futures n t f sigma;;
  v ← advance_futures u n t f sigma alpha;
  to_forwards (v_n v) (v_t v) (v_f v) (v_sigma v);;
  mret v.

(** Lines 88-93: the loop of [par_coupon], carrying [Dn], [D] and [t0]. *)
Fixpoint par_loop (k j t f : nat) (Dn D t0 : R) : M (R * R) :=
  match k with
  | O => mret (Dn, D)
  | S k' =>
      tj ← load mem_t (t + j);
      let dt := tj - t0 in
      fj ← load mem_f (f + j);
      let Dn' := Dn * exp (- fj * dt) in
      let D' := D + Dn' * dt in
      par_loop k' (S j) t f Dn' D' tj
  end.

(** Lines 82-96. *)
Definition par_coupon (n t f : nat) : M R :=
  let D0 := 1 in
  r ← par_loop n 0 t f 1 0 0;
  divide (D0 - fst r) (snd r).

(** ** Vocabulary of the statements *)

(** The curve of [n] buckets at [t], [f], [sigma] lies inside the buffers. *)
Definition in_bounds (n t f sigma : nat) (s : state) : Prop :=
  (t + n <= length (mem_t s))%nat /\
  (f + n <= length (mem_f s))%nat /\
  (sigma + n <= length (mem_sigma s))%nat.

(** One iteration of a loop that replaces [t[i]] by [gt t[i]] and [f[i]] by
    [gf t'[i] sigma[i] f[i]], where [t'[i]] is the new knot time. *)
Definition bucket_step (gt : R -> R) (gf : R -> R -> R -> R)
    (t f sigma i : nat) (s : state) : state :=
  let x := gt (rd (mem_t s) (t + i)) in
  State (<[(t + i)%nat := x]> (mem_t s))
        (<[(f + i)%nat := gf x (rd (mem_sigma s) (sigma + i)) (rd (mem_f s) (f + i))]>
           (mem_f s))
        (mem_sigma s) (variates s) (cursor s).

(** What a run of such a loop over the buckets [i, i+k) leaves behind. *)
Record buckets_updated (gt : R -> R) (gf : R -> R -> R -> R)
    (t f sigma i k : nat) (s s' : state) : Prop := {
  bu_sigma : mem_sigma s' = mem_sigma s;
  bu_variates : variates s' = variates s;
  bu_cursor : cursor s' = cursor s;
  bu_len_t : length (mem_t s') = length (mem_t s);
  bu_len_f : length (mem_f s') = length (mem_f s);
  bu_t : forall p, rd (mem_t s') p =
           if decide (t + i <= p < t + i + k)%nat
           then gt (rd (mem_t s) p) else rd (mem_t s) p;
  bu_f : forall p, rd (mem_f s') p =
           if decide (f + i <= p < f + i + k)%nat
           then gf (gt (rd (mem_t s) (t + (p - f))))
                   (rd (mem_sigma s) (sigma + (p - f)))
                   (rd (mem_f s) p)
           else rd (mem_f s) p
}.

(** The convexity adjustment [sigma^2 t^2 / 2] as the code writes it. *)
Definition convexity (x sg : R) : R := sg * sg * x * x / 2.

(** [B_u = B0 cos(alpha t) + B1 sin(alpha t)] at a rebased knot time [x]. *)
Definition rotated (alpha B0 B1 x : R) : R :=
  B0 * cos (alpha * x) + B1 * sin (alpha * x).

(** The factor line 65 multiplies a quote by. *)
Definition growth (u alpha B0 B1 x sg : R) : R :=
  exp (sg * rotated alpha B0 B1 x - sg * sg * u / 2).

(** What [advance_futures] leaves behind when it drops [k] buckets: the
    first [k] knots are matured, the next one (if any) is not, two
    variates are gone, and the buckets [k, n) are rebased and evolved. *)
Record advanced (u alpha : R) (n t phi sigma k : nat) (s s' : state) : Prop := {
  adv_le : (k <= n)%nat;
  adv_matured : forall j, (j < k)%nat -> rd (mem_t s) (t + j) <= u;
  adv_alive : (k < n)%nat -> u < rd (mem_t s) (t + k);
  adv_cursor : cursor s' = (cursor s + 2)%nat;
  adv_variates : variates s' = variates s;
  adv_sigma : mem_sigma s' = mem_sigma s;
  adv_len_t : length (mem_t s') = length (mem_t s);
  adv_len_f : length (mem_f s') = length (mem_f s);
  adv_t : forall p, rd (mem_t s') p =
            if decide (t + k <= p < t + n)%nat
            then rd (mem_t s) p - u else rd (mem_t s) p;
  adv_f : forall p, rd (mem_f s') p =
            if decide (phi + k <= p < phi + n)%nat
            then rd (mem_f s) p *
                 growth u alpha (variates s (cursor s)) (variates s (S (cursor s)))
                        (rd (mem_t s) (t + (p - phi)) - u)
                        (rd (mem_sigma s) (sigma + (p - phi)))
            else rd (mem_f s) p
}.

(** The knot time at the end of the [j]-th bucket of the grid at [t],
    counting buckets from 1: [knot mt t 0] is the implicit [t[-1] = 0] and
    [knot mt t (S i)] is [t[i]]. *)
Definition knot (mt : list R) (t j : nat) : R :=
  match j with
  | O => 0
  | S i => rd mt (t + i)
  end.

(** The grid invariant of the data model: [t[i] > t[i-1]] for every
    bucket, with the implicit [t[-1] = 0]. *)
Definition strictly_increasing (mt : list R) (t n : nat) : Prop :=
  forall j, (j < n)%nat -> knot mt t j < knot mt t (S j).

(** The par coupon as the specification words it: the bootstrapped
    discount factors [D_0 = 1], [D_j = D_(j-1) exp(-f_j (t_j - t_(j-1)))]
    and the annuity [A = sum_j D_j (t_j - t_(j-1))], the [j]-th bucket
    being the array entry [j-1]. *)
Fixpoint spec_discount (mt mf : list R) (t f j : nat) : R :=
  match j with
  | O => 1
  | S i => spec_discount mt mf t f i
           * exp (- rd mf (f + i) * (knot mt t (S i) - knot mt t i))
  end.

Fixpoint spec_annuity (mt mf : list R) (t f n : nat) : R :=
  match n with
  | O => 0
  | S i => spec_annuity mt mf t f i
           + spec_discount mt mf t f (S i) * (knot mt t (S i) - knot mt t i)
  end.

(** The value or the fault of a run, forgetting the final state. *)
Definition outcome {A} (r : result A) : A + fault :=
  match r with
  | Ok a _ => inl a
  | Fault e => inr e
  end.

(** ** The par coupon with the exponential left open

    [par_coupon] is a template over the number type [F] and calls whatever
    [exp] that type provides.  The two definitions below are lines 82-96
    again with that [exp] as a parameter; at the real exponential they are
    [par_loop] and [par_coupon]. *)
Fixpoint par_loop_with (ex : R -> R) (k j t f : nat) (Dn D t0 : R) : M (R * R) :=
  match k with
  | O => mret (Dn, D)
  | S k' =>
      tj ← load mem_t (t + j);
      let dt := tj - t0 in
      fj ← load mem_f (f + j);
      let Dn' := Dn * ex (- fj * dt) in
      let D' := D + Dn' * dt in
      par_loop_with ex k' (S j) t f Dn' D' tj
  end.

Definition par_coupon_with (ex : R -> R) (n t f : nat) : M R :=
  let D0 := 1 in
  r ← par_loop_with ex n 0 t f 1 0 0;
  divide (D0 - fst r) (snd r).

(** The exponential of a binary64 number type where it underflows: for
    [x <= -746] the real [exp x] is below [2^-1075], half the smallest
    positive binary64 number, and the computed result is zero.  Rounding
    above that threshold is not modelled. *)
Definition exp_underflowing (x : R) : R :=
  if Rle_dec x (-746) then 0 else exp x.

(** ** Buffers *)

Lemma rd_lookup (l : list R) (p : nat) :
  (p < length l)%nat -> l !! p = Some (rd l p).
Proof.
  intros Hp. unfold rd. rewrite nth_lookup.
  destruct (lookup_lt_is_Some_2 l p Hp) as [x ->]. reflexivity.
Qed.

Lemma lookup_rd (l : list R) (p : nat) (x : R) :
  l !! p = Some x -> rd l p = x.
Proof. intros H. unfold rd. rewrite nth_lookup, H. reflexivity. Qed.

Lemma rd_insert_eq (l : list R) (p : nat) (v : R) :
  (p < length l)%nat -> rd (<[p:=v]> l) p = v.
Proof. intros Hp. apply lookup_rd, list_lookup_insert_eq, Hp. Qed.

Lemma rd_insert_ne (l : list R) (p q : nat) (v : R) :
  p <> q -> rd (<[q:=v]> l) p = rd l p.
Proof.
  intros Hne. unfold rd. rewrite !nth_lookup.
  rewrite list_lookup_insert_ne by congruence. reflexivity.
Qed.

Lemma rd_ext (l1 l2 : list R) :
  length l1 = length l2 -> (forall p, rd l1 p = rd l2 p) -> l1 = l2.
Proof.
  intros Hlen Hrd. apply (nth_ext l1 l2 0 0 Hlen). intros p _. apply Hrd.
Qed.

(** ** Running the monad *)

Lemma bind_Ok {A B} (m : M A) (k : A -> M B) (s s' : state) (a : A) :
  m s = Ok a s' -> (m ≫= k) s = k a s'.
Proof. intros H. unfold mbind, M_bind, bind. rewrite H. reflexivity. Qed.

Lemma load_Ok (buf : state -> list R) (p : nat) (s : state) :
  (p < length (buf s))%nat -> load buf p s = Ok (rd (buf s) p) s.
Proof. intros Hp. unfold load. rewrite (rd_lookup _ _ Hp). reflexivity. Qed.

Lemma store_t_Ok (p : nat) (v : R) (s : state) :
  (p < length (mem_t s))%nat ->
  store_t p v s = Ok tt (State (<[p:=v]> (mem_t s)) (mem_f s) (mem_sigma s)
                               (variates s) (cursor s)).
Proof. intros Hp. unfold store_t. rewrite decide_True by exact Hp. reflexivity. Qed.

Lemma store_f_Ok (p : nat) (v : R) (s : state) :
  (p < length (mem_f s))%nat ->
  store_f p v s = Ok tt (State (mem_t s) (<[p:=v]> (mem_f s)) (mem_sigma s)
                               (variates s) (cursor s)).
Proof. intros Hp. unfold store_f. rewrite decide_True by exact Hp. reflexivity. Qed.

(** ** Loops that rewrite one bucket per iteration *)

Section Buckets.
Variables (gt : R -> R) (gf : R -> R -> R -> R).
Variables (t f sigma : nat).
Variable body : nat -> M unit.
Hypothesis body_step : forall j s,
  (t + j < length (mem_t s))%nat ->
  (f + j < length (mem_f s))%nat ->
  (sigma + j < length (mem_sigma s))%nat ->
  body j s = Ok tt (bucket_step gt gf t f sigma j s).

Lemma for_loop_buckets (k i : nat) (s : state) :
  in_bounds (i + k) t f sigma s ->
  exists s', for_loop k i body s = Ok tt s' /\
             buckets_updated gt gf t f sigma i k s s'.
Proof.
  revert i s. induction k as [|k IH]; intros i s (Ht & Hf & Hs).
  - exists s. split; [reflexivity|].
    split; try reflexivity; intros p; rewrite decide_False by lia; reflexivity.
  - destruct (IH (S i) (bucket_step gt gf t f sigma i s)) as (s' & Hrun & Hup).
    { unfold in_bounds, bucket_step; cbn [mem_t mem_f mem_sigma].
      rewrite !length_insert. lia. }
    exists s'. split.
    { cbn [for_loop]. rewrite (bind_Ok _ _ s (bucket_step gt gf t f sigma i s) tt);
        [exact Hrun|].
      apply body_step; lia. }
    destruct Hup as [H1 H2 H3 H4 H5 H6 H7].
    unfold bucket_step in *; cbn [mem_t mem_f mem_sigma variates cursor] in *.
    rewrite length_insert in H4, H5.
    split; try assumption.
    + intros p. rewrite H6.
      destruct (decide (p = t + i)%nat) as [->|Hne].
      * rewrite decide_False by lia. rewrite decide_True by lia.
        apply rd_insert_eq. lia.
      * rewrite rd_insert_ne by exact Hne.
        repeat case_decide; try reflexivity; lia.
    + intros p. rewrite H7.
      destruct (decide (p = f + i)%nat) as [->|Hne].
      * rewrite decide_False by lia. rewrite decide_True by lia.
        rewrite rd_insert_eq by lia.
        replace (t + (f + i - f))%nat with (t + i)%nat by lia.
        replace (sigma + (f + i - f))%nat with (sigma + i)%nat by lia.
        reflexivity.
      * rewrite (rd_insert_ne (mem_f s)) by exact Hne.
        repeat case_decide; try reflexivity; try lia.
        rewrite rd_insert_ne by lia. reflexivity.
Qed.
End Buckets.

(** ** The two conversions *)

Lemma to_futures_run (n t f sigma : nat) (s : state) :
  in_bounds n t f sigma s ->
  exists s', to_futures n t f sigma s = Ok tt s' /\
    buckets_updated (fun x => x) (fun x sg y => y + convexity x sg) t f sigma 0 n s s'.
Proof.
  intros Hb. apply for_loop_buckets; [|exact Hb].
  intros j s1 Ht Hf Hs.
  rewrite (bind_Ok _ _ _ _ _ (load_Ok mem_sigma _ _ Hs)).
  rewrite (bind_Ok _ _ _ _ _ (load_Ok mem_t _ _ Ht)).
  rewrite (bind_Ok _ _ _ _ _ (load_Ok mem_f _ _ Hf)).
  rewrite (store_f_Ok _ _ _ Hf). unfold bucket_step, convexity.
  rewrite (list_insert_id (mem_t s1)) by (apply rd_lookup, Ht). reflexivity.
Qed.

Lemma to_forwards_run (n t f sigma : nat) (s : state) :
  in_bounds n t f sigma s ->
  exists s', to_forwards n t f sigma s = Ok tt s' /\
    buckets_updated (fun x => x) (fun x sg y => y - convexity x sg) t f sigma 0 n s s'.
Proof.
  intros Hb. apply for_loop_buckets; [|exact Hb].
  intros j s1 Ht Hf Hs.
  rewrite (bind_Ok _ _ _ _ _ (load_Ok mem_sigma _ _ Hs)).
  rewrite (bind_Ok _ _ _ _ _ (load_Ok mem_t _ _ Ht)).
  rewrite (bind_Ok _ _ _ _ _ (load_Ok mem_f _ _ Hf)).
  rewrite (store_f_Ok _ _ _ Hf). unfold bucket_step, convexity.
  rewrite (list_insert_id (mem_t s1)) by (apply rd_lookup, Ht). reflexivity.
Qed.

Lemma buckets_updated_same_t gf t f sigma i k s s' :
  buckets_updated (fun x => x) gf t f sigma i k s s' -> mem_t s' = mem_t s.
Proof.
  intros H. apply rd_ext; [apply (bu_len_t _ _ _ _ _ _ _ _ _ H)|].
  intros p. rewrite (bu_t _ _ _ _ _ _ _ _ _ H). case_decide; reflexivity.
Qed.

(** ** The window and the evolution *)

Lemma window_run (u : R) (n t phi sigma : nat) (s : state) :
  (t + n <= length (mem_t s))%nat ->
  exists k, (k <= n)%nat /\
    window u n t phi sigma s = Ok (View (n - k) (t + k) (phi + k) (sigma + k)) s /\
    (forall j, (j < k)%nat -> rd (mem_t s) (t + j) <= u) /\
    ((k < n)%nat -> u < rd (mem_t s) (t + k)).
Proof.
  revert t phi sigma. induction n as [|n IH]; intros t phi sigma Hb.
  - exists 0%nat. rewrite !Nat.add_0_r. repeat split; [lia | lia | lia].
  - cbn [window].
    rewrite (bind_Ok _ _ _ _ _ (load_Ok mem_t t s ltac:(lia))).
    destruct (Rle_dec (rd (mem_t s) t) u) as [Hle|Hgt].
    + destruct (IH (S t) (S phi) (S sigma) ltac:(lia)) as (k & Hk & Hrun & Hm & Ha).
      exists (S k). split; [lia|].
      replace (S n - S k)%nat with (n - k)%nat by lia.
      replace (t + S k)%nat with (S t + k)%nat by lia.
      replace (phi + S k)%nat with (S phi + k)%nat by lia.
      replace (sigma + S k)%nat with (S sigma + k)%nat by lia.
      split; [exact Hrun|]. split.
      * intros [|j] Hj; [rewrite Nat.add_0_r; exact Hle|].
        replace (t + S j)%nat with (S t + j)%nat by lia. apply Hm. lia.
      * intros Hlt. apply Ha. lia.
    + exists 0%nat. rewrite !Nat.add_0_r, Nat.sub_0_r.
      repeat split; [lia | lia | intros _; lra].
Qed.

Lemma evolve_run (u alpha B0 B1 : R) (n t phi sigma : nat) (s : state) :
  in_bounds n t phi sigma s ->
  exists s', evolve u alpha B0 B1 (View n t phi sigma) s = Ok tt s' /\
    buckets_updated (fun x => x - u) (fun x sg y => y * growth u alpha B0 B1 x sg)
                    t phi sigma 0 n s s'.
Proof.
  intros Hb. apply for_loop_buckets; [|exact Hb].
  intros j s1 Ht Hf Hs. cbn [v_t v_f v_sigma].
  rewrite (bind_Ok _ _ _ _ _ (load_Ok mem_t _ _ Ht)).
  rewrite (bind_Ok _ _ _ _ _ (store_t_Ok _ _ _ Ht)).
  erewrite bind_Ok;
    [|apply load_Ok; cbn [mem_t]; rewrite length_insert; exact Ht].
  erewrite bind_Ok; [|apply load_Ok; exact Hs].
  erewrite bind_Ok; [|apply load_Ok; exact Hf].
  rewrite store_f_Ok by exact Hf.
  cbn [mem_t mem_f mem_sigma variates cursor].
  rewrite (rd_insert_eq _ _ _ Ht). reflexivity.
Qed.

Lemma advance_futures_run (u : R) (n t phi sigma : nat) (alpha : R) (s : state) :
  in_bounds n t phi sigma s ->
  exists k s',
    advance_futures u n t phi sigma alpha s
      = Ok (View (n - k) (t + k) (phi + k) (sigma + k)) s' /\
    advanced u alpha n t phi sigma k s s'.
Proof.
  intros (Ht & Hf & Hs).
  set (s2 := State (mem_t s) (mem_f s) (mem_sigma s) (variates s) (S (S (cursor s)))).
  destruct (window_run u n t phi sigma s2 Ht) as (k & Hk & Hw & Hm & Ha).
  destruct (evolve_run u alpha (variates s (cursor s)) (variates s (S (cursor s)))
              (n - k) (t + k) (phi + k) (sigma + k) s2) as (s' & He & Hup).
  { unfold in_bounds, s2; cbn [mem_t mem_f mem_sigma]. lia. }
  exists k, s'. split.
  - unfold advance_futures.
    rewrite (bind_Ok dre _ s _ _ eq_refl).
    rewrite (bind_Ok dre _ _ _ _ eq_refl).
    cbn [mem_t mem_f mem_sigma variates cursor]. fold s2.
    rewrite (bind_Ok _ _ _ _ _ Hw).
    rewrite (bind_Ok _ _ _ _ _ He). reflexivity.
  - destruct Hup as [H1 H2 H3 H4 H5 H6 H7].
    unfold s2 in *; cbn [mem_t mem_f mem_sigma variates cursor] in *.
    split; try assumption.
    + rewrite H3. lia.
    + intros p. rewrite H6. repeat case_decide; try reflexivity; lia.
    + intros p. rewrite H7. repeat case_decide; try reflexivity; try lia.
      replace (t + k + (p - (phi + k)))%nat with (t + (p - phi))%nat by lia.
      replace (sigma + k + (p - (phi + k)))%nat with (sigma + (p - phi))%nat by lia.
      reflexivity.
Qed.

Lemma rd_eq_lookup (l1 l2 : list R) (p : nat) :
  length l1 = length l2 -> rd l1 p = rd l2 p -> l1 !! p = l2 !! p.
Proof.
  intros Hlen Hrd. destruct (decide (p < length l1)%nat) as [Hp|Hp].
  - rewrite (rd_lookup l1 p Hp), (rd_lookup l2 p) by lia. congruence.
  - rewrite !lookup_ge_None_2 by lia. reflexivity.
Qed.

Lemma knots_ordered (mt : list R) (t n i j : nat) :
  strictly_increasing mt t n -> (i <= j <= n)%nat -> knot mt t i <= knot mt t j.
Proof.
  intros Hinc [Hij Hjn]. induction j as [|j IH].
  - replace i with 0%nat by lia. lra.
  - destruct (decide (i = S j)) as [->|Hne]; [lra|].
    specialize (IH ltac:(lia) ltac:(lia)). specialize (Hinc j ltac:(lia)). lra.
Qed.

(** ** Round trip of the conversions *)

(** C4. For a curve of [n] buckets lying in its buffers, [to_futures]
    followed by [to_forwards] on the same grid and volatilities succeeds and
    restores the state it started from: every rate is exactly its original
    value (exact real arithmetic), and nothing else has changed. *)
Theorem to_forwards_to_futures (n t f sigma : nat) (s : state) :
  in_bounds n t f sigma s ->
  (to_futures n t f sigma;; to_forwards n t f sigma) s = Ok tt s.
Proof.
  intros Hb.
  destruct (to_futures_run n t f sigma s Hb) as (s1 & Hrun1 & Hup1).
  pose proof (buckets_updated_same_t _ _ _ _ _ _ _ _ Hup1) as Ht1.
  destruct Hup1 as [Hs1 Hv1 Hc1 _ Hlf1 _ Hf1].
  assert (Hb1 : in_bounds n t f sigma s1).
  { unfold in_bounds in *. rewrite Ht1, Hlf1, Hs1. exact Hb. }
  destruct (to_forwards_run n t f sigma s1 Hb1) as (s2 & Hrun2 & Hup2).
  pose proof (buckets_updated_same_t _ _ _ _ _ _ _ _ Hup2) as Ht2.
  destruct Hup2 as [Hs2 Hv2 Hc2 _ Hlf2 _ Hf2].
  rewrite (bind_Ok _ _ _ _ _ Hrun1), Hrun2. f_equal.
  destruct s as [mt mf ms vs c], s2 as [mt2 mf2 ms2 vs2 c2].
  cbn [mem_t mem_f mem_sigma variates cursor] in *.
  f_equal; try congruence.
  apply rd_ext; [congruence|]. intros p. rewrite Hf2, Hf1, Ht1, Hs1.
  case_decide; [|reflexivity]. lra.
Qed.

Lemma to_forwards_to_futures_witness :
  let s := State [1; 2] [0.05; 0.04] [0.2; 0.3] (fun _ => 0) 0 in
  in_bounds 2 0 0 0 s /\
  (to_futures 2 0 0 0;; to_forwards 2 0 0 0) s = Ok tt s.
Proof.
  intros s.
  assert (Hb : in_bounds 2 0 0 0 s) by (unfold in_bounds; cbn; lia).
  split; [exact Hb | exact (to_forwards_to_futures 2 0 0 0 s Hb)].
Defined.

(** ** The curve-advance engine *)

(** C2. On a strictly increasing grid, when [u] lies strictly between
    [t[k-1]] (the implicit [t[-1] = 0] for [k = 0]) and [t[k]] (no upper
    bound for [k = n]), [advance_futures] succeeds, drops exactly the first
    [k] buckets (all three pointers move by [k]), returns [n - k], and every
    surviving knot time is its original value minus [u]. *)
Theorem advance_futures_window (u : R) (n t phi sigma : nat) (alpha : R)
    (s : state) (k : nat) :
  in_bounds n t phi sigma s ->
  strictly_increasing (mem_t s) t n ->
  (k <= n)%nat ->
  knot (mem_t s) t k < u ->
  ((k < n)%nat -> u < knot (mem_t s) t (S k)) ->
  exists s',
    advance_futures u n t phi sigma alpha s
      = Ok (View (n - k) (t + k) (phi + k) (sigma + k)) s' /\
    forall i, (i < n - k)%nat ->
      mem_t s' !! (t + k + i)%nat = Some (rd (mem_t s) (t + k + i) - u).
Proof.
  intros Hb Hinc Hk Hlo Hhi.
  destruct (advance_futures_run u n t phi sigma alpha s Hb) as (k' & s' & Hrun & Hadv).
  assert (k' = k) as ->.
  { destruct (Nat.lt_trichotomy k' k) as [Hlt|[Heq|Hgt]]; [exfalso | exact Heq | exfalso].
    - pose proof (adv_alive _ _ _ _ _ _ _ _ _ Hadv ltac:(lia)) as Ha.
      pose proof (knots_ordered (mem_t s) t n (S k') k Hinc ltac:(lia)) as Ho.
      cbn [knot] in Ho. lra.
    - pose proof (adv_matured _ _ _ _ _ _ _ _ _ Hadv k Hgt) as Hm.
      pose proof (adv_le _ _ _ _ _ _ _ _ _ Hadv) as Hle.
      specialize (Hhi ltac:(lia)). cbn [knot] in Hhi. lra. }
  exists s'. split; [exact Hrun|].
  intros i Hi. destruct Hb as (Ht & _ & _).
  rewrite rd_lookup by (rewrite (adv_len_t _ _ _ _ _ _ _ _ _ Hadv); lia).
  rewrite (adv_t _ _ _ _ _ _ _ _ _ Hadv), decide_True by lia. reflexivity.
Qed.

Lemma advance_futures_window_witness :
  let s := State [1; 2; 3] [0.05; 0.04; 0.03] [0.2; 0.3; 0.1] (fun _ => 1) 0 in
  exists s',
    advance_futures 1.5 3 0 0 0 0.1 s = Ok (View 2 1 1 1) s' /\
    forall i, (i < 2)%nat -> mem_t s' !! (1 + i)%nat = Some (rd (mem_t s) (1 + i) - 1.5).
Proof.
  intros s.
  apply (advance_futures_window 1.5 3 0 0 0 0.1 s 1).
  - unfold in_bounds; cbn; lia.
  - intros [|[|[|j]]] Hj; cbn; try lra. lia.
  - lia.
  - cbn. lra.
  - intros _. cbn. lra.
Defined.

(** C5. When every volatility of the curve is zero, [advance_futures]
    succeeds and every surviving rate is exactly what it was, whatever [u]
    (so for every [u >= 0]) and whatever the two variates drawn. *)
Theorem advance_futures_zero_vol (u : R) (n t phi sigma : nat) (alpha : R)
    (s : state) :
  in_bounds n t phi sigma s ->
  (forall i, (i < n)%nat -> rd (mem_sigma s) (sigma + i) = 0) ->
  exists v s',
    advance_futures u n t phi sigma alpha s = Ok v s' /\
    forall i, (i < v_n v)%nat ->
      mem_f s' !! (v_f v + i)%nat = Some (rd (mem_f s) (v_f v + i)).
Proof.
  intros Hb Hzero.
  destruct (advance_futures_run u n t phi sigma alpha s Hb) as (k & s' & Hrun & Hadv).
  eexists _, s'. split; [exact Hrun|]. cbn [v_n v_f].
  intros i Hi. destruct Hb as (_ & Hf & _).
  pose proof (adv_le _ _ _ _ _ _ _ _ _ Hadv) as Hle.
  rewrite rd_lookup by (rewrite (adv_len_f _ _ _ _ _ _ _ _ _ Hadv); lia).
  rewrite (adv_f _ _ _ _ _ _ _ _ _ Hadv), decide_True by lia.
  unfold growth. rewrite Hzero by lia.
  match goal with |- context [exp ?e] => replace e with 0 by (unfold Rdiv; ring) end.
  rewrite exp_0. f_equal. ring.
Qed.

Lemma advance_futures_zero_vol_witness :
  let s := State [1; 2; 3] [0.05; 0.04; 0.03] [0; 0; 0] (fun _ => 1) 0 in
  exists v s',
    advance_futures 1.5 3 0 0 0 0.1 s = Ok v s' /\
    forall i, (i < v_n v)%nat ->
      mem_f s' !! (v_f v + i)%nat = Some (rd (mem_f s) (v_f v + i)).
Proof.
  intros s.
  apply (advance_futures_zero_vol 1.5 3 0 0 0 0.1 s).
  - unfold in_bounds; cbn; lia.
  - intros [|[|[|i]]] Hi; cbn; try reflexivity. lia.
Defined.

(** C8. Every call draws exactly two variates from the random source, and
    draws them first: whatever [n] and [u], the call is the window and the
    evolution run with the two variates found at the cursor, from the state
    whose cursor has moved by two.  With [n = 0] the call returns 0 and
    changes nothing but the cursor.  On a curve lying in its buffers the
    call succeeds with the cursor moved by two, and every surviving rate is
    multiplied by the factor built from that one pair. *)
Theorem advance_futures_draws :
  (forall (u : R) (n t phi sigma : nat) (alpha : R) (s : state),
     advance_futures u n t phi sigma alpha s
     = (v ← window u n t phi sigma;
        evolve u alpha (variates s (cursor s)) (variates s (S (cursor s))) v;;
        mret v)
         (State (mem_t s) (mem_f s) (mem_sigma s) (variates s) (cursor s + 2))) /\
  (forall (u : R) (t phi sigma : nat) (alpha : R) (s : state),
     advance_futures u 0 t phi sigma alpha s
     = Ok (View 0 t phi sigma)
          (State (mem_t s) (mem_f s) (mem_sigma s) (variates s) (cursor s + 2))) /\
  (forall (u : R) (n t phi sigma : nat) (alpha : R) (s : state),
     in_bounds n t phi sigma s ->
     exists v s',
       advance_futures u n t phi sigma alpha s = Ok v s' /\
       cursor s' = (cursor s + 2)%nat /\
       variates s' = variates s /\
       forall i, (i < v_n v)%nat ->
         let B0 := variates s (cursor s) in
         let B1 := variates s (S (cursor s)) in
         let ti := rd (mem_t s') (v_t v + i) in
         let si := rd (mem_sigma s) (v_sigma v + i) in
         rd (mem_f s') (v_f v + i)
         = rd (mem_f s) (v_f v + i)
           * exp (si * (B0 * cos (alpha * ti) + B1 * sin (alpha * ti))
                  - si * si * u / 2)).
Proof.
  assert (Hs2 : forall s : state,
            State (mem_t s) (mem_f s) (mem_sigma s) (variates s) (cursor s + 2)
            = State (mem_t s) (mem_f s) (mem_sigma s) (variates s) (S (S (cursor s)))).
  { intros s. f_equal. lia. }
  split; [|split].
  - intros u n t phi sigma alpha s. rewrite Hs2. reflexivity.
  - intros u t phi sigma alpha s. rewrite Hs2. reflexivity.
  - intros u n t phi sigma alpha s Hb.
    destruct (advance_futures_run u n t phi sigma alpha s Hb) as (k & s' & Hrun & Hadv).
    eexists _, s'. split; [exact Hrun|]. cbn [v_n v_t v_f v_sigma].
    split; [exact (adv_cursor _ _ _ _ _ _ _ _ _ Hadv)|].
    split; [exact (adv_variates _ _ _ _ _ _ _ _ _ Hadv)|].
    intros i Hi. cbn zeta.
    pose proof (adv_le _ _ _ _ _ _ _ _ _ Hadv) as Hle.
    rewrite (adv_f _ _ _ _ _ _ _ _ _ Hadv), decide_True by lia.
    rewrite (adv_t _ _ _ _ _ _ _ _ _ Hadv), decide_True by lia.
    replace (t + (phi + k + i - phi))%nat with (t + k + i)%nat by lia.
    replace (sigma + (phi + k + i - phi))%nat with (sigma + k + i)%nat by lia.
    reflexivity.
Qed.

Lemma advance_futures_draws_witness :
  let s := State [1; 2; 3] [0.05; 0.04; 0.03] [0.2; 0.3; 0.1] (fun i => INR i) 4 in
  exists v s',
    advance_futures 1.5 3 0 0 0 0.1 s = Ok v s' /\ cursor s' = 6%nat.
Proof.
  intros s.
  destruct (proj2 (proj2 advance_futures_draws) 1.5 3%nat 0%nat 0%nat 0%nat 0.1 s)
    as (v & s' & Hrun & Hc & _).
  - unfold in_bounds; cbn; lia.
  - exists v, s'. split; [exact Hrun | exact Hc].
Defined.

(** C10. [advance_futures] leaves the whole volatility buffer as it was,
    leaves every knot time and every rate stored in front of the returned
    view as it was, and returns a suffix of the curve it was given: the
    returned count is at most [n] and each of the three pointers has moved
    by [n] minus the returned count. *)
Theorem advance_futures_frame (u : R) (n t phi sigma : nat) (alpha : R)
    (s : state) :
  in_bounds n t phi sigma s ->
  exists v s',
    advance_futures u n t phi sigma alpha s = Ok v s' /\
    mem_sigma s' = mem_sigma s /\
    (forall p, (p < v_t v)%nat -> mem_t s' !! p = mem_t s !! p) /\
    (forall p, (p < v_f v)%nat -> mem_f s' !! p = mem_f s !! p) /\
    (v_n v <= n)%nat /\
    v_t v = (t + (n - v_n v))%nat /\
    v_f v = (phi + (n - v_n v))%nat /\
    v_sigma v = (sigma + (n - v_n v))%nat.
Proof.
  intros Hb.
  destruct (advance_futures_run u n t phi sigma alpha s Hb) as (k & s' & Hrun & Hadv).
  pose proof (adv_le _ _ _ _ _ _ _ _ _ Hadv) as Hle.
  eexists _, s'. split; [exact Hrun|]. cbn [v_n v_t v_f v_sigma].
  split; [exact (adv_sigma _ _ _ _ _ _ _ _ _ Hadv)|].
  split; [|split].
  - intros p Hp. apply rd_eq_lookup; [exact (adv_len_t _ _ _ _ _ _ _ _ _ Hadv)|].
    rewrite (adv_t _ _ _ _ _ _ _ _ _ Hadv), decide_False by lia. reflexivity.
  - intros p Hp. apply rd_eq_lookup; [exact (adv_len_f _ _ _ _ _ _ _ _ _ Hadv)|].
    rewrite (adv_f _ _ _ _ _ _ _ _ _ Hadv), decide_False by lia. reflexivity.
  - repeat split; lia.
Qed.

Lemma advance_futures_frame_witness :
  let s := State [1; 2; 3] [0.05; 0.04; 0.03] [0.2; 0.3; 0.1] (fun _ => 1) 0 in
  exists v s',
    advance_futures 1.5 3 0 0 0 0.1 s = Ok v s' /\
    mem_sigma s' = mem_sigma s /\
    (forall p, (p < v_t v)%nat -> mem_t s' !! p = mem_t s !! p) /\
    (forall p, (p < v_f v)%nat -> mem_f s' !! p = mem_f s !! p) /\
    (v_n v <= 3)%nat /\
    v_t v = (0 + (3 - v_n v))%nat /\
    v_f v = (0 + (3 - v_n v))%nat /\
    v_sigma v = (0 + (3 - v_n v))%nat.
Proof.
  intros s.
  apply (advance_futures_frame 1.5 3 0 0 0 0.1 s).
  unfold in_bounds; cbn; lia.
Defined.

(** ** The par coupon *)

Lemma par_loop_run (k j t f : nat) (s : state) :
  (t + (j + k) <= length (mem_t s))%nat ->
  (f + (j + k) <= length (mem_f s))%nat ->
  par_loop k j t f (spec_discount (mem_t s) (mem_f s) t f j)
                   (spec_annuity (mem_t s) (mem_f s) t f j)
                   (knot (mem_t s) t j) s
  = Ok (spec_discount (mem_t s) (mem_f s) t f (j + k),
        spec_annuity (mem_t s) (mem_f s) t f (j + k)) s.
Proof.
  revert j. induction k as [|k IH]; intros j Ht Hf.
  - rewrite Nat.add_0_r. reflexivity.
  - cbn [par_loop].
    rewrite (bind_Ok _ _ _ _ _ (load_Ok mem_t (t + j) s ltac:(lia))).
    rewrite (bind_Ok _ _ _ _ _ (load_Ok mem_f (f + j) s ltac:(lia))).
    cbn zeta. replace (j + S k)%nat with (S j + k)%nat by lia.
    rewrite <- (IH (S j)) by lia. reflexivity.
Qed.

Lemma spec_discount_pos (mt mf : list R) (t f j : nat) :
  0 < spec_discount mt mf t f j.
Proof.
  induction j as [|j IH]; cbn [spec_discount]; [lra|].
  apply Rmult_lt_0_compat; [exact IH | apply exp_pos].
Qed.

Lemma spec_annuity_pos (mt mf : list R) (t f n : nat) :
  strictly_increasing mt t n -> (1 <= n)%nat -> 0 < spec_annuity mt mf t f n.
Proof.
  intros Hinc Hn.
  assert (Hge : forall m, (m <= n)%nat -> 0 <= spec_annuity mt mf t f m).
  { induction m as [|m IH]; intros Hm; cbn [spec_annuity]; [lra|].
    specialize (IH ltac:(lia)). specialize (Hinc m ltac:(lia)).
    pose proof (spec_discount_pos mt mf t f (S m)). nra. }
  destruct n as [|n]; [lia|]. cbn [spec_annuity].
  specialize (Hge n ltac:(lia)). specialize (Hinc n ltac:(lia)).
  pose proof (spec_discount_pos mt mf t f (S n)). nra.
Qed.

Lemma par_coupon_run (n t f : nat) (s : state) :
  (t + n <= length (mem_t s))%nat ->
  (f + n <= length (mem_f s))%nat ->
  par_coupon n t f s
  = divide (1 - spec_discount (mem_t s) (mem_f s) t f n)
           (spec_annuity (mem_t s) (mem_f s) t f n) s.
Proof.
  intros Ht Hf. unfold par_coupon. cbn zeta.
  rewrite (bind_Ok _ _ _ _ _ (par_loop_run n 0 t f s Ht Hf)). reflexivity.
Qed.

Lemma divide_Ok (x y : R) (s : state) : y <> 0 -> divide x y s = Ok (x / y) s.
Proof. intros Hy. unfold divide. destruct (Req_dec_T y 0); [contradiction | reflexivity]. Qed.

(** C3. On a curve of [n >= 1] buckets whose grid is strictly increasing
    from the implicit [t[-1] = 0], [par_coupon] returns [(1 - D_n) / A] for
    the bootstrapped discount factors and the annuity of the
    specification; and for [t = [1, 2]], [f = [0.05, 0.05]] it returns
    [(1 - D2) / (D1 + D2)] with [D1 = exp(-0.05)] and [D2 = D1 exp(-0.05)]. *)
Theorem par_coupon_bootstrap :
  (forall (n t f : nat) (s : state),
     (1 <= n)%nat ->
     (t + n <= length (mem_t s))%nat ->
     (f + n <= length (mem_f s))%nat ->
     strictly_increasing (mem_t s) t n ->
     par_coupon n t f s
     = Ok ((1 - spec_discount (mem_t s) (mem_f s) t f n)
           / spec_annuity (mem_t s) (mem_f s) t f n) s) /\
  (forall (ms : list R) (vs : nat -> R) (c : nat),
     let s := State [1; 2] [0.05; 0.05] ms vs c in
     let D1 := exp (- 0.05) in
     let D2 := D1 * exp (- 0.05) in
     par_coupon 2 0 0 s = Ok ((1 - D2) / (D1 + D2)) s).
Proof.
  split.
  - intros n t f s Hn Ht Hf Hinc.
    rewrite (par_coupon_run n t f s Ht Hf). apply divide_Ok.
    pose proof (spec_annuity_pos (mem_t s) (mem_f s) t f n Hinc Hn). lra.
  - intros ms vs c s D1 D2.
    rewrite (par_coupon_run 2 0 0 s) by (cbn; lia).
    unfold s; cbn [mem_t mem_f spec_discount spec_annuity knot rd nth Nat.add].
    assert (E1 : exp (- (0.05) * (1 - 0)) = D1) by (unfold D1; f_equal; lra).
    assert (E2 : exp (- (0.05) * (2 - 1)) = exp (- 0.05)) by (f_equal; lra).
    rewrite E1, E2.
    replace (1 * D1 * exp (- 0.05)) with D2 by (unfold D2; ring).
    replace (0 + 1 * D1 * (1 - 0) + D2 * (2 - 1)) with (D1 + D2) by ring.
    apply divide_Ok.
    assert (0 < D1) by apply exp_pos.
    assert (0 < D2) by (apply Rmult_lt_0_compat; [assumption | apply exp_pos]).
    lra.
Qed.

Lemma par_coupon_bootstrap_witness :
  let s := State [1; 2; 4] [0.05; 0.04; 0.03] [] (fun _ => 0) 0 in
  par_coupon 3 0 0 s
  = Ok ((1 - spec_discount (mem_t s) (mem_f s) 0 0 3)
        / spec_annuity (mem_t s) (mem_f s) 0 0 3) s.
Proof.
  intros s.
  apply (proj1 par_coupon_bootstrap 3%nat 0%nat 0%nat s).
  - lia.
  - cbn; lia.
  - cbn; lia.
  - intros [|[|[|j]]] Hj; cbn; try lra. lia.
Defined.

Lemma par_loop_with_exp (k j t f : nat) (Dn D t0 : R) (s : state) :
  par_loop_with exp k j t f Dn D t0 s = par_loop k j t f Dn D t0 s.
Proof.
  revert j Dn D t0. induction k as [|k IH]; intros j Dn D t0; [reflexivity|].
  cbn [par_loop_with par_loop]. unfold mbind, M_bind, bind, load.
  destruct (mem_t s !! (t + j)%nat); [|reflexivity].
  destruct (mem_f s !! (f + j)%nat); [|reflexivity].
  apply IH.
Qed.

Lemma par_coupon_with_exp (n t f : nat) (s : state) :
  par_coupon_with exp n t f s = par_coupon n t f s.
Proof.
  unfold par_coupon_with, par_coupon. cbn zeta. unfold mbind, M_bind, bind.
  rewrite par_loop_with_exp. reflexivity.
Qed.

(** The loop with positive discount factors: the running product stays
    positive and every bucket adds a positive term to the annuity. *)
Lemma par_loop_with_positive (ex : R -> R) (k j t f : nat) (Dn D t0 : R)
    (s : state) :
  (t + (j + k) <= length (mem_t s))%nat ->
  (f + (j + k) <= length (mem_f s))%nat ->
  (forall i, (j <= i < j + k)%nat -> knot (mem_t s) t i < knot (mem_t s) t (S i)) ->
  (forall i, (j <= i < j + k)%nat ->
     0 < ex (- rd (mem_f s) (f + i) * (knot (mem_t s) t (S i) - knot (mem_t s) t i))) ->
  t0 = knot (mem_t s) t j -> 0 < Dn -> 0 <= D ->
  exists Dn' D',
    par_loop_with ex k j t f Dn D t0 s = Ok (Dn', D') s /\
    0 < Dn' /\ D <= D' /\ ((1 <= k)%nat -> D < D').
Proof.
  revert j Dn D t0. induction k as [|k IH]; intros j Dn D t0 Ht Hf Hinc Hex Ht0 HDn HD.
  - exists Dn, D. split; [reflexivity|]. repeat split; [assumption | lra | lia].
  - cbn [par_loop_with].
    rewrite (bind_Ok _ _ _ _ _ (load_Ok mem_t (t + j) s ltac:(lia))).
    rewrite (bind_Ok _ _ _ _ _ (load_Ok mem_f (f + j) s ltac:(lia))).
    cbn zeta.
    specialize (Hinc j ltac:(lia)) as Hj. specialize (Hex j ltac:(lia)) as He.
    cbn [knot] in Hj, He. rewrite <- Ht0 in Hj, He.
    set (dt := rd (mem_t s) (t + j) - t0) in *.
    set (e := ex (- rd (mem_f s) (f + j) * dt)) in *.
    assert (Hdt : 0 < dt) by (unfold dt; lra).
    assert (HDn' : 0 < Dn * e) by (apply Rmult_lt_0_compat; assumption).
    assert (Hterm : 0 < Dn * e * dt) by (apply Rmult_lt_0_compat; assumption).
    destruct (IH (S j) (Dn * e) (D + Dn * e * dt) (rd (mem_t s) (t + j)))
      as (Dn' & D' & Hrun & Hp & Hle & _).
    + lia.
    + lia.
    + intros i Hi. apply Hinc. lia.
    + intros i Hi. apply Hex. lia.
    + reflexivity.
    + exact HDn'.
    + lra.
    + exists Dn', D'. split; [exact Hrun|]. repeat split; [assumption | lra | intros _; lra].
Qed.




(** ** Degenerate runs: no volatility, no elapsed time *)

Lemma state_eq (s s' : state) :
  mem_t s' = mem_t s -> mem_f s' = mem_f s -> mem_sigma s' = mem_sigma s ->
  variates s' = variates s -> cursor s' = cursor s -> s' = s.
Proof. destruct s, s'; cbn; intros; subst; reflexivity. Qed.

Lemma in_bounds_lengths (n t f sigma : nat) (s s' : state) :
  length (mem_t s') = length (mem_t s) ->
  length (mem_f s') = length (mem_f s) ->
  mem_sigma s' = mem_sigma s ->
  in_bounds n t f sigma s -> in_bounds n t f sigma s'.
Proof. unfold in_bounds. intros -> -> ->. tauto. Qed.

Lemma to_futures_zero_vol (n t f sigma : nat) (s : state) :
  in_bounds n t f sigma s ->
  (forall i, (i < n)%nat -> rd (mem_sigma s) (sigma + i) = 0) ->
  to_futures n t f sigma s = Ok tt s.
Proof.
  intros Hb Hzero. destruct (to_futures_run n t f sigma s Hb) as (s' & Hrun & Hup).
  rewrite Hrun. f_equal.
  pose proof (buckets_updated_same_t _ _ _ _ _ _ _ _ Hup) as Ht.
  destruct Hup as [H1 H2 H3 H4 H5 H6 H7].
  apply state_eq; try assumption.
  apply rd_ext; [exact H5|]. intros p. rewrite H7.
  case_decide; [|reflexivity].
  rewrite Hzero by lia. unfold convexity, Rdiv. ring.
Qed.

Lemma to_forwards_zero_vol (n t f sigma : nat) (s : state) :
  in_bounds n t f sigma s ->
  (forall i, (i < n)%nat -> rd (mem_sigma s) (sigma + i) = 0) ->
  to_forwards n t f sigma s = Ok tt s.
Proof.
  intros Hb Hzero. destruct (to_forwards_run n t f sigma s Hb) as (s' & Hrun & Hup).
  rewrite Hrun. f_equal.
  pose proof (buckets_updated_same_t _ _ _ _ _ _ _ _ Hup) as Ht.
  destruct Hup as [H1 H2 H3 H4 H5 H6 H7].
  apply state_eq; try assumption.
  apply rd_ext; [exact H5|]. intros p. rewrite H7.
  case_decide; [|reflexivity].
  rewrite Hzero by lia. unfold convexity, Rdiv. ring.
Qed.

(** With [u = 0] and positive knot times nothing is dropped and the grid
    is untouched; each rate is multiplied by [exp(sigma[i] * B_u(i))]. *)
Lemma advance_futures_at_zero (n t phi sigma : nat) (alpha : R) (s : state) :
  in_bounds n t phi sigma s ->
  (forall i, (i < n)%nat -> 0 < rd (mem_t s) (t + i)) ->
  exists s',
    advance_futures 0 n t phi sigma alpha s = Ok (View n t phi sigma) s' /\
    mem_t s' = mem_t s /\
    mem_sigma s' = mem_sigma s /\
    variates s' = variates s /\
    cursor s' = (cursor s + 2)%nat /\
    length (mem_f s') = length (mem_f s) /\
    forall p, rd (mem_f s') p =
      if decide (phi <= p < phi + n)%nat
      then rd (mem_f s) p *
           exp (rd (mem_sigma s) (sigma + (p - phi)) *
                rotated alpha (variates s (cursor s)) (variates s (S (cursor s)))
                        (rd (mem_t s) (t + (p - phi))))
      else rd (mem_f s) p.
Proof.
  intros Hb Hpos.
  destruct (advance_futures_run 0 n t phi sigma alpha s Hb) as (k & s' & Hrun & Hadv).
  assert (k = 0%nat) as ->.
  { destruct k as [|k]; [reflexivity | exfalso].
    pose proof (adv_matured _ _ _ _ _ _ _ _ _ Hadv 0%nat ltac:(lia)) as Hm.
    pose proof (adv_le _ _ _ _ _ _ _ _ _ Hadv) as Hle.
    specialize (Hpos 0%nat ltac:(lia)). lra. }
  rewrite Nat.sub_0_r, !Nat.add_0_r in Hrun.
  destruct Hadv as [_ _ _ Hc Hv Hs Hlt Hlf Ht Hf].
  exists s'. split; [exact Hrun|].
  split; [|repeat split; try assumption].
  - apply rd_ext; [exact Hlt|]. intros p. rewrite Ht. case_decide; lra.
  - intros p. rewrite Hf, Nat.add_0_r. case_decide; [|reflexivity].
    unfold growth. f_equal. f_equal. rewrite Rminus_0_r. unfold Rdiv. ring.
Qed.

(** [par_coupon] only looks at the knot times and the rates. *)
Lemma par_loop_frame (k j t f : nat) (Dn D t0 : R) (s s' : state) :
  mem_t s' = mem_t s -> mem_f s' = mem_f s ->
  outcome (par_loop k j t f Dn D t0 s') = outcome (par_loop k j t f Dn D t0 s).
Proof.
  intros Ht Hf. revert j Dn D t0.
  induction k as [|k IH]; intros j Dn D t0; [reflexivity|].
  cbn [par_loop]. unfold mbind, M_bind, bind, load. rewrite Ht.
  destruct (mem_t s !! (t + j)%nat); [|reflexivity].
  rewrite Hf.
  destruct (mem_f s !! (f + j)%nat); [|reflexivity].
  apply IH.
Qed.

Lemma par_coupon_frame (n t f : nat) (s s' : state) :
  mem_t s' = mem_t s -> mem_f s' = mem_f s ->
  outcome (par_coupon n t f s') = outcome (par_coupon n t f s).
Proof.
  intros Ht Hf. pose proof (par_loop_frame n 0 t f 1 0 0 s s' Ht Hf) as Hl.
  unfold par_coupon. cbn zeta. unfold mbind, M_bind, bind.
  destruct (par_loop n 0 t f 1 0 0 s') as [r1 s1|e1],
           (par_loop n 0 t f 1 0 0 s) as [r2 s2|e2];
    cbn [outcome] in Hl; try discriminate; injection Hl as ->; [|reflexivity].
  unfold divide. destruct (Req_dec_T (snd r2) 0); reflexivity.
Qed.

(** ** The forward-curve advance *)

(** C9. [advance] is [to_futures] on the full curve, then
    [advance_futures], then [to_forwards] on the view that came back; on a
    curve lying in its buffers each of the three steps succeeds in turn.
    And with zero volatilities and positive knot times, advancing to
    [u = 0] and pricing the returned view gives exactly the outcome of
    pricing the original curve. *)
Theorem advance_sequence_and_pricing :
  (forall (u : R) (n t f sigma : nat) (alpha : R),
     advance u n t f sigma alpha
     = (to_futures n t f sigma;;
        v ← advance_futures u n t f sigma alpha;
        to_forwards (v_n v) (v_t v) (v_f v) (v_sigma v);;
        mret v)) /\
  (forall (u : R) (n t f sigma : nat) (alpha : R) (s : state),
     in_bounds n t f sigma s ->
     exists s1 v s2 s3,
       to_futures n t f sigma s = Ok tt s1 /\
       advance_futures u n t f sigma alpha s1 = Ok v s2 /\
       to_forwards (v_n v) (v_t v) (v_f v) (v_sigma v) s2 = Ok tt s3 /\
       advance u n t f sigma alpha s = Ok v s3) /\
  (forall (n t f sigma : nat) (alpha : R) (s : state),
     in_bounds n t f sigma s ->
     (forall i, (i < n)%nat -> rd (mem_sigma s) (sigma + i) = 0) ->
     (forall i, (i < n)%nat -> 0 < rd (mem_t s) (t + i)) ->
     exists v s',
       advance 0 n t f sigma alpha s = Ok v s' /\
       outcome (par_coupon (v_n v) (v_t v) (v_f v) s')
       = outcome (par_coupon n t f s)).
Proof.
  split; [reflexivity|]. split.
  - intros u n t f sigma alpha s Hb.
    destruct (to_futures_run n t f sigma s Hb) as (s1 & Hrun1 & Hup1).
    assert (Hb1 : in_bounds n t f sigma s1).
    { apply (in_bounds_lengths n t f sigma s); [apply Hup1 .. | exact Hb]. }
    destruct (advance_futures_run u n t f sigma alpha s1 Hb1)
      as (k & s2 & Hrun2 & Hadv).
    assert (Hb2 : in_bounds (n - k) (t + k) (f + k) (sigma + k) s2).
    { pose proof (adv_le _ _ _ _ _ _ _ _ _ Hadv) as Hle.
      apply (in_bounds_lengths _ _ _ _ s1); [apply Hadv .. |].
      unfold in_bounds in *. lia. }
    destruct (to_forwards_run _ _ _ _ s2 Hb2) as (s3 & Hrun3 & _).
    exists s1, (View (n - k) (t + k) (f + k) (sigma + k)), s2, s3.
    repeat split; try assumption.
    unfold advance.
    rewrite (bind_Ok _ _ _ _ _ Hrun1), (bind_Ok _ _ _ _ _ Hrun2).
    cbn [v_n v_t v_f v_sigma].
    rewrite (bind_Ok _ _ _ _ _ Hrun3). reflexivity.
  - intros n t f sigma alpha s Hb Hzero Hpos.
    destruct (advance_futures_at_zero n t f sigma alpha s Hb Hpos)
      as (s' & Hrun & Ht & Hs & Hv & Hc & Hlf & Hf).
    assert (Hmf : mem_f s' = mem_f s).
    { apply rd_ext; [exact Hlf|]. intros p. rewrite Hf.
      case_decide; [|reflexivity].
      rewrite Hzero by lia. rewrite Rmult_0_l, exp_0. ring. }
    assert (Hb' : in_bounds n t f sigma s').
    { apply (in_bounds_lengths n t f sigma s); congruence. }
    exists (View n t f sigma), s'. split.
    + unfold advance.
      rewrite (bind_Ok _ _ _ _ _ (to_futures_zero_vol n t f sigma s Hb Hzero)).
      rewrite (bind_Ok _ _ _ _ _ Hrun). cbn [v_n v_t v_f v_sigma].
      rewrite (bind_Ok _ _ s' s' tt); [reflexivity|].
      apply to_forwards_zero_vol; [exact Hb'|].
      intros i Hi. rewrite Hs. apply Hzero, Hi.
    + cbn [v_n v_t v_f]. apply par_coupon_frame; assumption.
Qed.

Lemma advance_sequence_and_pricing_witness :
  let s := State [1; 2; 4] [0.05; 0.04; 0.03] [0; 0; 0] (fun _ => 1) 0 in
  exists v s',
    advance 0 3 0 0 0 0.1 s = Ok v s' /\
    outcome (par_coupon (v_n v) (v_t v) (v_f v) s') = outcome (par_coupon 3 0 0 s).
Proof.
  intros s.
  apply (proj2 (proj2 advance_sequence_and_pricing) 3%nat 0%nat 0%nat 0%nat 0.1 s).
  - unfold in_bounds; cbn; lia.
  - intros [|[|[|i]]] Hi; cbn; try reflexivity. lia.
  - intros [|[|[|i]]] Hi; cbn; try lra. lia.
Defined.

(** ** Runs in which no time elapses *)

Lemma exp_ne_1 (z : R) : z <> 0 -> exp z <> 1.
Proof. intros Hz He. apply Hz, exp_inv. rewrite He, exp_0. reflexivity. Qed.

Lemma singleton_rd (l : list R) : length l = 1%nat -> l = [rd l 0].
Proof. destruct l as [|x [|y l]]; cbn; intros H; try discriminate. reflexivity. Qed.

(** C6. The run at the one-bucket curve [t = [1]], [phi = [1]],
    [sigma = [1]] with [u = 0], [alpha = 0] and both variates equal to 1:
    no bucket is dropped and the knot time is unchanged, but the rate
    becomes [exp 1], so the evolve pass is not a no-op on the rates. *)
Theorem advance_futures_zero_time_moves_rate :
  let s := State [1] [1] [1] (fun _ => 1) 0 in
  exists s',
    advance_futures 0 1 0 0 0 0 s = Ok (View 1 0 0 0) s' /\
    mem_t s' = mem_t s /\
    mem_f s' = [exp 1] /\
    mem_f s' <> mem_f s.
Proof.
  intros s.
  destruct (advance_futures_at_zero 1 0 0 0 0 s) as (s' & Hrun & Ht & _ & _ & _ & Hlf & Hf).
  { unfold in_bounds; cbn; lia. }
  { intros [|i] Hi; [cbn; lra | lia]. }
  assert (Hmf : mem_f s' = [exp 1]).
  { rewrite (singleton_rd (mem_f s') Hlf). f_equal.
    rewrite Hf, decide_True by lia. cbn. unfold rotated.
    rewrite !Rmult_0_l, cos_0, sin_0. rewrite Rmult_1_l. f_equal. ring. }
  exists s'. repeat split; try assumption.
  rewrite Hmf. cbn. intros Heq. injection Heq as Heq.
  apply (exp_ne_1 1); [lra | exact Heq].
Qed.

(** C1. The run at a one-bucket curve [t = [t0]], [phi = [r]],
    [sigma = [sg]] ([t0 > 0], [r > 0]) with [u = 0] and [alpha = 0], under
    a first variate [b] and under its mirror image [- b], which a standard
    normal draw yields with the same density: whenever [sg * b] is not
    zero, the mean of the two resulting rates is strictly above the rate
    before the call.  The expected rate after the call is therefore above,
    not equal to, the rate before it. *)
Theorem advance_futures_mirrored_draws (r sg t0 b b1 : R) :
  0 < r -> 0 < t0 -> sg * b <> 0 ->
  let s_pos := State [t0] [r] [sg] (fun i => match i with O => b | S _ => b1 end) 0 in
  let s_neg := State [t0] [r] [sg] (fun i => match i with O => - b | S _ => b1 end) 0 in
  exists s1 s2,
    advance_futures 0 1 0 0 0 0 s_pos = Ok (View 1 0 0 0) s1 /\
    advance_futures 0 1 0 0 0 0 s_neg = Ok (View 1 0 0 0) s2 /\
    r < (rd (mem_f s1) 0 + rd (mem_f s2) 0) / 2.
Proof.
  intros Hr Ht0 Hsb s_pos s_neg.
  destruct (advance_futures_at_zero 1 0 0 0 0 s_pos) as (s1 & Hrun1 & _ & _ & _ & _ & _ & Hf1).
  { unfold in_bounds; cbn; lia. }
  { intros [|i] Hi; [cbn; lra | lia]. }
  destruct (advance_futures_at_zero 1 0 0 0 0 s_neg) as (s2 & Hrun2 & _ & _ & _ & _ & _ & Hf2).
  { unfold in_bounds; cbn; lia. }
  { intros [|i] Hi; [cbn; lra | lia]. }
  exists s1, s2. split; [exact Hrun1|]. split; [exact Hrun2|].
  rewrite Hf1, Hf2, !decide_True by lia. cbn. unfold rotated.
  rewrite !Rmult_0_l, cos_0, sin_0.
  replace (sg * (b * 1 + b1 * 0)) with (sg * b) by ring.
  replace (sg * (- b * 1 + b1 * 0)) with (- (sg * b)) by ring.
  set (X := exp (sg * b)). set (Y := exp (- (sg * b))).
  assert (HXY : X * Y = 1).
  { unfold X, Y. rewrite <- exp_plus, Rplus_opp_r. apply exp_0. }
  assert (HX : X <> 1) by (apply exp_ne_1, Hsb).
  assert (HY : 0 < Y) by apply exp_pos.
  assert (Hsq : 0 < (X - 1) * (X - 1)) by nra.
  assert (Hsum : X + Y - 2 = Y * ((X - 1) * (X - 1))).
  { transitivity ((X * Y) * X - 2 * (X * Y) + Y); [rewrite HXY; ring | ring]. }
  assert (Hgt : 2 < X + Y) by nra.
  nra.
Qed.

Lemma advance_futures_mirrored_draws_witness :
  let s_pos := State [1] [1] [1] (fun i => match i with O => 1 | S _ => 0 end) 0 in
  let s_neg := State [1] [1] [1] (fun i => match i with O => - (1) | S _ => 0 end) 0 in
  exists s1 s2,
    advance_futures 0 1 0 0 0 0 s_pos = Ok (View 1 0 0 0) s1 /\
    advance_futures 0 1 0 0 0 0 s_neg = Ok (View 1 0 0 0) s2 /\
    1 < (rd (mem_f s1) 0 + rd (mem_f s2) 0) / 2.
Proof.
  intros s_pos s_neg.
  apply (advance_futures_mirrored_draws 1 1 1 1 0); lra.
Defined.

(** ** More on the two conversions *)

Lemma buckets_updated_at gt gf t f sigma n s s' j :
  buckets_updated gt gf t f sigma 0 n s s' -> (j < n)%nat ->
  rd (mem_t s') (t + j) = gt (rd (mem_t s) (t + j)) /\
  rd (mem_f s') (f + j)
  = gf (gt (rd (mem_t s) (t + j))) (rd (mem_sigma s) (sigma + j)) (rd (mem_f s) (f + j)).
Proof.
  intros H Hj. split.
  - rewrite (bu_t _ _ _ _ _ _ _ _ _ H), decide_True by lia. reflexivity.
  - rewrite (bu_f _ _ _ _ _ _ _ _ _ H), decide_True by lia.
    replace (f + j - f)%nat with j by lia. reflexivity.
Qed.

Lemma buckets_updated_off gt gf t f sigma n s s' p :
  buckets_updated gt gf t f sigma 0 n s s' -> ~ (f <= p < f + n)%nat ->
  rd (mem_f s') p = rd (mem_f s) p.
Proof.
  intros H Hp. rewrite (bu_f _ _ _ _ _ _ _ _ _ H), decide_False by lia. reflexivity.
Qed.

(** X1. On a curve lying in its buffers [to_futures] succeeds; it adds
    [sigma[i]^2 t[i]^2 / 2] to each of the [n] rates of the curve and
    changes nothing else: not the knot times, not the volatilities, not
    the random source, not a rate outside the curve. *)
Theorem to_futures_adjusts (n t f sigma : nat) (s : state) :
  in_bounds n t f sigma s ->
  exists s',
    to_futures n t f sigma s = Ok tt s' /\
    mem_t s' = mem_t s /\ mem_sigma s' = mem_sigma s /\
    variates s' = variates s /\ cursor s' = cursor s /\
    length (mem_f s') = length (mem_f s) /\
    (forall i, (i < n)%nat ->
       let si := rd (mem_sigma s) (sigma + i) in
       let ti := rd (mem_t s) (t + i) in
       rd (mem_f s') (f + i) = rd (mem_f s) (f + i) + si * si * ti * ti / 2) /\
    (forall p, ~ (f <= p < f + n)%nat -> rd (mem_f s') p = rd (mem_f s) p).
Proof.
  intros Hb. destruct (to_futures_run n t f sigma s Hb) as (s' & Hrun & Hup).
  exists s'. split; [exact Hrun|].
  split; [exact (buckets_updated_same_t _ _ _ _ _ _ _ _ Hup)|].
  repeat split; try apply Hup.
  - intros i Hi. cbn zeta.
    destruct (buckets_updated_at _ _ _ _ _ _ _ _ i Hup Hi) as [_ ->]. reflexivity.
  - intros p Hp. exact (buckets_updated_off _ _ _ _ _ _ _ _ p Hup Hp).
Qed.

Lemma to_futures_adjusts_witness :
  let s := State [1; 2] [0.05; 0.04] [0.2; 0.3] (fun _ => 0) 0 in
  exists s',
    to_futures 1 1 1 1 s = Ok tt s' /\
    rd (mem_f s') 1 = 0.04 + 0.3 * 0.3 * 2 * 2 / 2 /\
    rd (mem_f s') 0 = 0.05.
Proof.
  intros s.
  destruct (to_futures_adjusts 1 1 1 1 s) as (s' & Hrun & _ & _ & _ & _ & _ & Hin & Hout).
  - unfold in_bounds; cbn; lia.
  - exists s'. split; [exact Hrun|]. split.
    + exact (Hin 0%nat ltac:(lia)).
    + apply (Hout 0%nat). lia.
Defined.

(** X2. On a curve lying in its buffers [to_forwards] succeeds; it
    subtracts [sigma[i]^2 t[i]^2 / 2] from each of the [n] rates of the
    curve and changes nothing else. *)
Theorem to_forwards_adjusts (n t phi sigma : nat) (s : state) :
  in_bounds n t phi sigma s ->
  exists s',
    to_forwards n t phi sigma s = Ok tt s' /\
    mem_t s' = mem_t s /\ mem_sigma s' = mem_sigma s /\
    variates s' = variates s /\ cursor s' = cursor s /\
    length (mem_f s') = length (mem_f s) /\
    (forall i, (i < n)%nat ->
       let si := rd (mem_sigma s) (sigma + i) in
       let ti := rd (mem_t s) (t + i) in
       rd (mem_f s') (phi + i) = rd (mem_f s) (phi + i) - si * si * ti * ti / 2) /\
    (forall p, ~ (phi <= p < phi + n)%nat -> rd (mem_f s') p = rd (mem_f s) p).
Proof.
  intros Hb. destruct (to_forwards_run n t phi sigma s Hb) as (s' & Hrun & Hup).
  exists s'. split; [exact Hrun|].
  split; [exact (buckets_updated_same_t _ _ _ _ _ _ _ _ Hup)|].
  repeat split; try apply Hup.
  - intros i Hi. cbn zeta.
    destruct (buckets_updated_at _ _ _ _ _ _ _ _ i Hup Hi) as [_ ->]. reflexivity.
  - intros p Hp. exact (buckets_updated_off _ _ _ _ _ _ _ _ p Hup Hp).
Qed.

Lemma to_forwards_adjusts_witness :
  let s := State [1; 2] [0.05; 0.04] [0.2; 0.3] (fun _ => 0) 0 in
  exists s',
    to_forwards 1 1 1 1 s = Ok tt s' /\
    rd (mem_f s') 1 = 0.04 - 0.3 * 0.3 * 2 * 2 / 2 /\
    rd (mem_f s') 0 = 0.05.
Proof.
  intros s.
  destruct (to_forwards_adjusts 1 1 1 1 s) as (s' & Hrun & _ & _ & _ & _ & _ & Hin & Hout).
  - unfold in_bounds; cbn; lia.
  - exists s'. split; [exact Hrun|]. split.
    + exact (Hin 0%nat ltac:(lia)).
    + apply (Hout 0%nat). lia.
Defined.

(** X3. The futures quote [to_futures] writes is never below the forward
    rate it read: the adjustment it adds is a square over two. *)
Theorem to_futures_raises (n t f sigma : nat) (s : state) :
  in_bounds n t f sigma s ->
  exists s',
    to_futures n t f sigma s = Ok tt s' /\
    forall i, (i < n)%nat -> rd (mem_f s) (f + i) <= rd (mem_f s') (f + i).
Proof.
  intros Hb. destruct (to_futures_run n t f sigma s Hb) as (s' & Hrun & Hup).
  exists s'. split; [exact Hrun|]. intros i Hi.
  destruct (buckets_updated_at _ _ _ _ _ _ _ _ i Hup Hi) as [_ ->].
  unfold convexity.
  set (x := rd (mem_t s) (t + i)). set (sg := rd (mem_sigma s) (sigma + i)).
  replace (sg * sg * x * x / 2) with ((sg * x) * (sg * x) / 2) by (unfold Rdiv; ring).
  pose proof (Rle_0_sqr (sg * x)) as Hsq. unfold Rsqr in Hsq. lra.
Qed.

Lemma to_futures_raises_witness :
  let s := State [1; 2] [0.05; 0.04] [0.2; 0.3] (fun _ => 0) 0 in
  exists s',
    to_futures 2 0 0 0 s = Ok tt s' /\
    forall i, (i < 2)%nat -> rd (mem_f s) (0 + i) <= rd (mem_f s') (0 + i).
Proof.
  intros s. apply (to_futures_raises 2 0 0 0 s).
  unfold in_bounds; cbn; lia.
Defined.

(** X4. The round trip in the other order: [to_forwards] followed by
    [to_futures] on the same grid and volatilities also restores the state
    it started from. *)
Theorem to_futures_to_forwards (n t f sigma : nat) (s : state) :
  in_bounds n t f sigma s ->
  (to_forwards n t f sigma;; to_futures n t f sigma) s = Ok tt s.
Proof.
  intros Hb.
  destruct (to_forwards_run n t f sigma s Hb) as (s1 & Hrun1 & Hup1).
  pose proof (buckets_updated_same_t _ _ _ _ _ _ _ _ Hup1) as Ht1.
  destruct Hup1 as [Hs1 Hv1 Hc1 Hlt1 Hlf1 _ Hf1].
  assert (Hb1 : in_bounds n t f sigma s1).
  { apply (in_bounds_lengths n t f sigma s); assumption. }
  destruct (to_futures_run n t f sigma s1 Hb1) as (s2 & Hrun2 & Hup2).
  pose proof (buckets_updated_same_t _ _ _ _ _ _ _ _ Hup2) as Ht2.
  destruct Hup2 as [Hs2 Hv2 Hc2 _ Hlf2 _ Hf2].
  rewrite (bind_Ok _ _ _ _ _ Hrun1), Hrun2. f_equal.
  apply state_eq; try congruence.
  apply rd_ext; [congruence|]. intros p. rewrite Hf2, Hf1, Ht1, Hs1.
  case_decide; [|reflexivity]. lra.
Qed.

Lemma to_futures_to_forwards_witness :
  let s := State [1; 2] [0.05; 0.04] [0.2; 0.3] (fun _ => 0) 0 in
  (to_forwards 2 0 0 0;; to_futures 2 0 0 0) s = Ok tt s.
Proof.
  intros s. apply (to_futures_to_forwards 2 0 0 0 s).
  unfold in_bounds; cbn; lia.
Defined.

(** ** More on the curve-advance engine *)

(** The number of dropped buckets is the one prefix length whose knots are
    all matured and whose next knot is not; no ordering of the grid is
    needed for that. *)
Lemma drop_count_unique (u alpha : R) (n t phi sigma k k0 : nat) (s s' : state) :
  advanced u alpha n t phi sigma k s s' ->
  (k0 <= n)%nat ->
  (forall j, (j < k0)%nat -> rd (mem_t s) (t + j) <= u) ->
  ((k0 < n)%nat -> u < rd (mem_t s) (t + k0)) ->
  k = k0.
Proof.
  intros Hadv Hk0 Hm Ha.
  pose proof (adv_le _ _ _ _ _ _ _ _ _ Hadv) as Hle.
  destruct (Nat.lt_trichotomy k k0) as [Hlt|[Heq|Hgt]]; [exfalso | exact Heq | exfalso].
  - pose proof (adv_alive _ _ _ _ _ _ _ _ _ Hadv ltac:(lia)) as H1.
    specialize (Hm k Hlt). lra.
  - pose proof (adv_matured _ _ _ _ _ _ _ _ _ Hadv k0 Hgt) as H1.
    specialize (Ha ltac:(lia)). lra.
Qed.

(** X5. The window is a prefix skip with an inclusive test, whatever the
    order of the grid: when the first [k] knots are [<= u] (a knot equal to
    [u] is matured) and the next knot, if there is one, is [> u],
    [advance_futures] drops exactly [k] buckets and rebases every later
    knot by [u], including later knots that are themselves [<= u]. *)
Theorem advance_futures_prefix_skip (u : R) (n t phi sigma : nat) (alpha : R)
    (s : state) (k : nat) :
  in_bounds n t phi sigma s ->
  (k <= n)%nat ->
  (forall j, (j < k)%nat -> rd (mem_t s) (t + j) <= u) ->
  ((k < n)%nat -> u < rd (mem_t s) (t + k)) ->
  exists s',
    advance_futures u n t phi sigma alpha s
      = Ok (View (n - k) (t + k) (phi + k) (sigma + k)) s' /\
    forall i, (k <= i < n)%nat -> rd (mem_t s') (t + i) = rd (mem_t s) (t + i) - u.
Proof.
  intros Hb Hk Hm Ha.
  destruct (advance_futures_run u n t phi sigma alpha s Hb) as (k' & s' & Hrun & Hadv).
  assert (k' = k) as -> by exact (drop_count_unique _ _ _ _ _ _ _ _ _ _ Hadv Hk Hm Ha).
  exists s'. split; [exact Hrun|]. intros i Hi.
  rewrite (adv_t _ _ _ _ _ _ _ _ _ Hadv), decide_True by lia. reflexivity.
Qed.

Lemma advance_futures_prefix_skip_witness :
  let s := State [1; 3; 2] [0.05; 0.04; 0.03] [0.2; 0.3; 0.1] (fun _ => 1) 0 in
  exists s',
    advance_futures 2 3 0 0 0 0.1 s = Ok (View 2 1 1 1) s' /\
    forall i, (1 <= i < 3)%nat -> rd (mem_t s') (0 + i) = rd (mem_t s) (0 + i) - 2.
Proof.
  intros s. apply (advance_futures_prefix_skip 2 3 0 0 0 0.1 s 1).
  - unfold in_bounds; cbn; lia.
  - lia.
  - intros [|j] Hj; [cbn; lra | lia].
  - intros _. cbn. lra.
Defined.

(** X6. When every knot of the curve is [<= u] the call returns 0 with the
    three pointers moved past the curve, and leaves the three buffers
    exactly as they were: only the two variates are consumed.  The rate
    and volatility buffers are not even read. *)
Theorem advance_futures_all_matured (u : R) (n t phi sigma : nat) (alpha : R)
    (s : state) :
  (t + n <= length (mem_t s))%nat ->
  (forall j, (j < n)%nat -> rd (mem_t s) (t + j) <= u) ->
  advance_futures u n t phi sigma alpha s
  = Ok (View 0 (t + n) (phi + n) (sigma + n))
       (State (mem_t s) (mem_f s) (mem_sigma s) (variates s) (cursor s + 2)).
Proof.
  intros Ht Hm.
  set (s2 := State (mem_t s) (mem_f s) (mem_sigma s) (variates s) (cursor s + 2)).
  assert (Hs2 : s2 = State (mem_t s) (mem_f s) (mem_sigma s) (variates s)
                           (S (S (cursor s)))).
  { unfold s2. f_equal. lia. }
  destruct (window_run u n t phi sigma s2 Ht) as (k & Hk & Hw & _ & Ha).
  assert (k = n) as ->.
  { destruct (decide (k = n)) as [|Hne]; [assumption | exfalso].
    specialize (Ha ltac:(lia)). specialize (Hm k ltac:(lia)).
    unfold s2 in Ha; cbn [mem_t] in Ha. lra. }
  rewrite Nat.sub_diag in Hw.
  unfold advance_futures.
  rewrite (bind_Ok dre _ s _ _ eq_refl).
  rewrite (bind_Ok dre _ _ _ _ eq_refl).
  cbn [mem_t mem_f mem_sigma variates cursor]. rewrite <- Hs2.
  rewrite (bind_Ok _ _ _ _ _ Hw). reflexivity.
Qed.

Lemma advance_futures_all_matured_witness :
  let s := State [1; 2] [] [] (fun _ => 1) 0 in
  advance_futures 2 2 0 0 0 0.1 s
  = Ok (View 0 2 2 2) (State [1; 2] [] [] (fun _ => 1) 2).
Proof.
  intros s. apply (advance_futures_all_matured 2 2 0 0 0 0.1 s).
  - cbn; lia.
  - intros [|[|j]] Hj; cbn; try lra. lia.
Defined.

(** X7. On a grid strictly increasing from the implicit [t[-1] = 0],
    every knot time [advance_futures] leaves in the returned view is
    strictly positive, and the returned knot times are still in
    non-decreasing order.  This holds for every [u]. *)
Theorem advance_futures_survivors_positive (u : R) (n t phi sigma : nat)
    (alpha : R) (s : state) :
  in_bounds n t phi sigma s ->
  strictly_increasing (mem_t s) t n ->
  exists v s',
    advance_futures u n t phi sigma alpha s = Ok v s' /\
    (forall i, (i < v_n v)%nat -> 0 < rd (mem_t s') (v_t v + i)) /\
    (forall i, (S i < v_n v)%nat ->
       rd (mem_t s') (v_t v + i) <= rd (mem_t s') (v_t v + S i)).
Proof.
  intros Hb Hinc.
  destruct (advance_futures_run u n t phi sigma alpha s Hb) as (k & s' & Hrun & Hadv).
  pose proof (adv_le _ _ _ _ _ _ _ _ _ Hadv) as Hle.
  eexists _, s'. split; [exact Hrun|]. cbn [v_n v_t]. split.
  - intros i Hi.
    rewrite (adv_t _ _ _ _ _ _ _ _ _ Hadv), decide_True by lia.
    pose proof (adv_alive _ _ _ _ _ _ _ _ _ Hadv ltac:(lia)) as Ha.
    pose proof (knots_ordered (mem_t s) t n (S k) (S (k + i)) Hinc ltac:(lia)) as Ho.
    cbn [knot] in Ho.
    replace (t + k + i)%nat with (t + (k + i))%nat by lia. lra.
  - intros i Hi.
    rewrite !(adv_t _ _ _ _ _ _ _ _ _ Hadv), !decide_True by lia.
    specialize (Hinc (S (k + i)) ltac:(lia)). cbn [knot] in Hinc.
    replace (t + k + i)%nat with (t + (k + i))%nat by lia.
    replace (t + k + S i)%nat with (t + S (k + i))%nat by lia. lra.
Qed.

Lemma advance_futures_survivors_positive_witness :
  let s := State [1; 2; 3] [0.05; 0.04; 0.03] [0.2; 0.3; 0.1] (fun _ => 1) 0 in
  exists v s',
    advance_futures 1.5 3 0 0 0 0.1 s = Ok v s' /\
    (forall i, (i < v_n v)%nat -> 0 < rd (mem_t s') (v_t v + i)) /\
    (forall i, (S i < v_n v)%nat ->
       rd (mem_t s') (v_t v + i) <= rd (mem_t s') (v_t v + S i)).
Proof.
  intros s. apply (advance_futures_survivors_positive 1.5 3 0 0 0 0.1 s).
  - unfold in_bounds; cbn; lia.
  - intros [|[|[|j]]] Hj; cbn; try lra. lia.
Defined.

(** X8. [advance_futures] never flips the sign of a surviving rate: each
    is multiplied by an exponential, so a positive quote does not become
    negative and a negative quote does not become positive, whatever the
    variates drawn. *)
Theorem advance_futures_no_sign_flip (u : R) (n t phi sigma : nat) (alpha : R)
    (s : state) :
  in_bounds n t phi sigma s ->
  exists v s',
    advance_futures u n t phi sigma alpha s = Ok v s' /\
    forall i, (i < v_n v)%nat ->
      (0 < rd (mem_f s) (v_f v + i) -> 0 <= rd (mem_f s') (v_f v + i)) /\
      (rd (mem_f s) (v_f v + i) < 0 -> rd (mem_f s') (v_f v + i) <= 0).
Proof.
  intros Hb.
  destruct (advance_futures_run u n t phi sigma alpha s Hb) as (k & s' & Hrun & Hadv).
  pose proof (adv_le _ _ _ _ _ _ _ _ _ Hadv) as Hle.
  eexists _, s'. split; [exact Hrun|]. cbn [v_n v_f]. intros i Hi.
  rewrite (adv_f _ _ _ _ _ _ _ _ _ Hadv), decide_True by lia.
  unfold growth.
  match goal with |- context [exp ?e] => pose proof (exp_pos e) as Hg; set (g := exp e) in * end.
  split; intros Hr; nra.
Qed.

Lemma advance_futures_no_sign_flip_witness :
  let s := State [1; 2; 3] [0.05; 0; -0.03] [0.2; 0.3; 0.1] (fun _ => 1) 0 in
  exists v s',
    advance_futures 0.5 3 0 0 0 0.1 s = Ok v s' /\
    forall i, (i < v_n v)%nat ->
      (0 < rd (mem_f s) (v_f v + i) -> 0 <= rd (mem_f s') (v_f v + i)) /\
      (rd (mem_f s) (v_f v + i) < 0 -> rd (mem_f s') (v_f v + i) <= 0).
Proof.
  intros s. apply (advance_futures_no_sign_flip 0.5 3 0 0 0 0.1 s).
  unfold in_bounds; cbn; lia.
Defined.

(** X10. With [alpha = 0] the second variate has no influence: every
    surviving rate is multiplied by [exp(sigma[i] B0 - sigma[i]^2 u / 2)],
    where [B0] is the first variate drawn. *)
Theorem advance_futures_no_rotation (u : R) (n t phi sigma : nat) (s : state) :
  in_bounds n t phi sigma s ->
  exists v s',
    advance_futures u n t phi sigma 0 s = Ok v s' /\
    forall i, (i < v_n v)%nat ->
      let si := rd (mem_sigma s) (v_sigma v + i) in
      rd (mem_f s') (v_f v + i)
      = rd (mem_f s) (v_f v + i) * exp (si * variates s (cursor s) - si * si * u / 2).
Proof.
  intros Hb.
  destruct (advance_futures_run u n t phi sigma 0 s Hb) as (k & s' & Hrun & Hadv).
  pose proof (adv_le _ _ _ _ _ _ _ _ _ Hadv) as Hle.
  eexists _, s'. split; [exact Hrun|]. cbn [v_n v_f v_sigma]. intros i Hi. cbn zeta.
  rewrite (adv_f _ _ _ _ _ _ _ _ _ Hadv), decide_True by lia.
  unfold growth, rotated. rewrite Rmult_0_l, cos_0, sin_0.
  replace (sigma + (phi + k + i - phi))%nat with (sigma + k + i)%nat by lia.
  f_equal. f_equal. ring.
Qed.

Lemma advance_futures_no_rotation_witness :
  let s := State [1; 2; 3] [0.05; 0.04; 0.03] [0.2; 0.3; 0.1] (fun i => INR i) 0 in
  exists v s',
    advance_futures 1.5 3 0 0 0 0 s = Ok v s' /\
    forall i, (i < v_n v)%nat ->
      let si := rd (mem_sigma s) (v_sigma v + i) in
      rd (mem_f s') (v_f v + i)
      = rd (mem_f s) (v_f v + i) * exp (si * variates s (cursor s) - si * si * 1.5 / 2).
Proof.
  intros s. apply (advance_futures_no_rotation 1.5 3 0 0 0 s).
  unfold in_bounds; cbn; lia.
Defined.

(** ** More on the forward-curve advance *)

(** X11. What [advance] leaves behind on a curve lying in its buffers.  It
    drops the prefix [k] of matured buckets, consumes two variates and
    leaves the volatilities alone.  A surviving bucket has its knot time
    rebased by [u] and its rate converted to a futures quote with the old
    knot time, evolved, and converted back with the rebased knot time.  A
    dropped bucket keeps its knot time, but its stored rate is left in
    futures representation: [to_forwards] only runs on the returned view. *)
Theorem advance_result (u : R) (n t f sigma : nat) (alpha : R) (s : state) :
  in_bounds n t f sigma s ->
  exists k s',
    (k <= n)%nat /\
    advance u n t f sigma alpha s = Ok (View (n - k) (t + k) (f + k) (sigma + k)) s' /\
    (forall j, (j < k)%nat -> rd (mem_t s) (t + j) <= u) /\
    ((k < n)%nat -> u < rd (mem_t s) (t + k)) /\
    mem_sigma s' = mem_sigma s /\
    cursor s' = (cursor s + 2)%nat /\
    (forall i, (i < k)%nat ->
       let ti := rd (mem_t s) (t + i) in
       let si := rd (mem_sigma s) (sigma + i) in
       rd (mem_t s') (t + i) = ti /\
       rd (mem_f s') (f + i) = rd (mem_f s) (f + i) + si * si * ti * ti / 2) /\
    (forall i, (k <= i < n)%nat ->
       let ti := rd (mem_t s) (t + i) in
       let si := rd (mem_sigma s) (sigma + i) in
       let B0 := variates s (cursor s) in
       let B1 := variates s (S (cursor s)) in
       let Bu := B0 * cos (alpha * (ti - u)) + B1 * sin (alpha * (ti - u)) in
       rd (mem_t s') (t + i) = ti - u /\
       rd (mem_f s') (f + i)
       = (rd (mem_f s) (f + i) + si * si * ti * ti / 2)
         * exp (si * Bu - si * si * u / 2)
         - si * si * (ti - u) * (ti - u) / 2).
Proof.
  intros Hb.
  destruct (to_futures_run n t f sigma s Hb) as (s1 & Hrun1 & Hup1).
  pose proof (buckets_updated_same_t _ _ _ _ _ _ _ _ Hup1) as Ht1.
  assert (Hb1 : in_bounds n t f sigma s1).
  { apply (in_bounds_lengths n t f sigma s); [apply Hup1 .. | exact Hb]. }
  destruct (advance_futures_run u n t f sigma alpha s1 Hb1) as (k & s2 & Hrun2 & Hadv).
  pose proof (adv_le _ _ _ _ _ _ _ _ _ Hadv) as Hle.
  assert (Hb2 : in_bounds (n - k) (t + k) (f + k) (sigma + k) s2).
  { apply (in_bounds_lengths _ _ _ _ s1); [apply Hadv .. |].
    unfold in_bounds in *. lia. }
  destruct (to_forwards_run _ _ _ _ s2 Hb2) as (s3 & Hrun3 & Hup3).
  pose proof (buckets_updated_same_t _ _ _ _ _ _ _ _ Hup3) as Ht3.
  pose proof (bu_sigma _ _ _ _ _ _ _ _ _ Hup1) as Hs1.
  pose proof (bu_sigma _ _ _ _ _ _ _ _ _ Hup3) as Hs3.
  pose proof (adv_sigma _ _ _ _ _ _ _ _ _ Hadv) as Hs2.
  exists k, s3. split; [exact Hle|]. split.
  { unfold advance.
    rewrite (bind_Ok _ _ _ _ _ Hrun1), (bind_Ok _ _ _ _ _ Hrun2).
    cbn [v_n v_t v_f v_sigma].
    rewrite (bind_Ok _ _ _ _ _ Hrun3). reflexivity. }
  split.
  { intros j Hj. rewrite <- Ht1. exact (adv_matured _ _ _ _ _ _ _ _ _ Hadv j Hj). }
  split.
  { intros Hk. rewrite <- Ht1. exact (adv_alive _ _ _ _ _ _ _ _ _ Hadv Hk). }
  split; [congruence|]. split.
  { rewrite (bu_cursor _ _ _ _ _ _ _ _ _ Hup3), (adv_cursor _ _ _ _ _ _ _ _ _ Hadv),
      (bu_cursor _ _ _ _ _ _ _ _ _ Hup1). reflexivity. }
  split.
  - intros i Hi. cbn zeta. split.
    + rewrite Ht3, (adv_t _ _ _ _ _ _ _ _ _ Hadv), decide_False, Ht1 by lia. reflexivity.
    + rewrite (buckets_updated_off _ _ _ _ _ _ _ _ (f + i)%nat Hup3) by lia.
      rewrite (adv_f _ _ _ _ _ _ _ _ _ Hadv), decide_False by lia.
      destruct (buckets_updated_at _ _ _ _ _ _ _ _ i Hup1 ltac:(lia)) as [_ ->].
      reflexivity.
  - intros i Hi. cbn zeta.
    assert (Hti : rd (mem_t s2) (t + i) = rd (mem_t s) (t + i) - u).
    { rewrite (adv_t _ _ _ _ _ _ _ _ _ Hadv), decide_True, Ht1 by lia. reflexivity. }
    split; [rewrite Ht3; exact Hti|].
    destruct (buckets_updated_at _ _ _ _ _ _ _ _ (i - k)%nat Hup3 ltac:(lia)) as [_ H3].
    replace (t + k + (i - k))%nat with (t + i)%nat in H3 by lia.
    replace (f + k + (i - k))%nat with (f + i)%nat in H3 by lia.
    replace (sigma + k + (i - k))%nat with (sigma + i)%nat in H3 by lia.
    rewrite H3, Hti, Hs2, Hs1.
    rewrite (adv_f _ _ _ _ _ _ _ _ _ Hadv), decide_True by lia.
    replace (f + i - f)%nat with i by lia.
    destruct (buckets_updated_at _ _ _ _ _ _ _ _ i Hup1 ltac:(lia)) as [_ ->].
    rewrite Ht1, Hs1.
    rewrite (bu_variates _ _ _ _ _ _ _ _ _ Hup1), (bu_cursor _ _ _ _ _ _ _ _ _ Hup1).
    reflexivity.
Qed.

Lemma advance_result_witness :
  let s := State [1; 2; 3] [0.05; 0.04; 0.03] [0.2; 0.3; 0.1] (fun _ => 1) 0 in
  exists k s',
    (k <= 3)%nat /\
    advance 1.5 3 0 0 0 0.1 s = Ok (View (3 - k) (0 + k) (0 + k) (0 + k)) s' /\
    cursor s' = 2%nat.
Proof.
  intros s.
  destruct (advance_result 1.5 3 0 0 0 0.1 s) as (k & s' & Hk & Hrun & _ & _ & _ & Hc & _).
  - unfold in_bounds; cbn; lia.
  - exists k, s'. repeat split; assumption.
Defined.

(** X12. With zero volatilities [advance] is a pure time shift, for every
    [u] and whatever the variates: it succeeds, no stored rate changes, and
    every surviving knot time is rebased by [u]. *)
Theorem advance_zero_vol (u : R) (n t f sigma : nat) (alpha : R) (s : state) :
  in_bounds n t f sigma s ->
  (forall i, (i < n)%nat -> rd (mem_sigma s) (sigma + i) = 0) ->
  exists v s',
    advance u n t f sigma alpha s = Ok v s' /\
    mem_f s' = mem_f s /\
    mem_sigma s' = mem_sigma s /\
    forall i, (i < v_n v)%nat ->
      rd (mem_t s') (v_t v + i) = rd (mem_t s) (v_t v + i) - u.
Proof.
  intros Hb Hzero.
  destruct (advance_futures_run u n t f sigma alpha s Hb) as (k & s' & Hrun & Hadv).
  pose proof (adv_le _ _ _ _ _ _ _ _ _ Hadv) as Hle.
  pose proof (adv_sigma _ _ _ _ _ _ _ _ _ Hadv) as Hs.
  assert (Hmf : mem_f s' = mem_f s).
  { apply rd_ext; [apply Hadv|]. intros p.
    rewrite (adv_f _ _ _ _ _ _ _ _ _ Hadv). case_decide; [|reflexivity].
    unfold growth. rewrite Hzero by lia.
    match goal with |- context [exp ?e] => replace e with 0 by (unfold Rdiv; ring) end.
    rewrite exp_0. ring. }
  assert (Hb' : in_bounds (n - k) (t + k) (f + k) (sigma + k) s').
  { apply (in_bounds_lengths _ _ _ _ s); [apply Hadv .. |].
    unfold in_bounds in *. lia. }
  eexists _, s'. split.
  - unfold advance.
    rewrite (bind_Ok _ _ _ _ _ (to_futures_zero_vol n t f sigma s Hb Hzero)).
    rewrite (bind_Ok _ _ _ _ _ Hrun). cbn [v_n v_t v_f v_sigma].
    rewrite (bind_Ok _ _ s' s' tt); [reflexivity|].
    apply to_forwards_zero_vol; [exact Hb'|].
    intros i Hi. rewrite Hs.
    replace (sigma + k + i)%nat with (sigma + (k + i))%nat by lia. apply Hzero. lia.
  - split; [exact Hmf|]. split; [exact Hs|]. cbn [v_n v_t]. intros i Hi.
    rewrite (adv_t _ _ _ _ _ _ _ _ _ Hadv), decide_True by lia. reflexivity.
Qed.

Lemma advance_zero_vol_witness :
  let s := State [1; 2; 3] [0.05; 0.04; 0.03] [0; 0; 0] (fun _ => 1) 0 in
  exists v s',
    advance 1.5 3 0 0 0 0.1 s = Ok v s' /\
    mem_f s' = mem_f s /\
    mem_sigma s' = mem_sigma s /\
    forall i, (i < v_n v)%nat ->
      rd (mem_t s') (v_t v + i) = rd (mem_t s) (v_t v + i) - 1.5.
Proof.
  intros s. apply (advance_zero_vol 1.5 3 0 0 0 0.1 s).
  - unfold in_bounds; cbn; lia.
  - intros [|[|[|i]]] Hi; cbn; try reflexivity. lia.
Defined.

(** ** More on the par coupon *)

Lemma par_coupon_lower (mt mf : list R) (t f n : nat) (m : R) :
  strictly_increasing mt t n ->
  (forall i, (i < n)%nat -> m <= rd mf (f + i)) ->
  forall j, (j <= n)%nat ->
    m * spec_annuity mt mf t f j <= 1 - spec_discount mt mf t f j.
Proof.
  intros Hinc Hm. induction j as [|j IH]; intros Hj.
  - cbn [spec_annuity spec_discount]. lra.
  - specialize (IH ltac:(lia)). specialize (Hinc j ltac:(lia)). specialize (Hm j ltac:(lia)).
    cbn [spec_annuity spec_discount].
    pose proof (spec_discount_pos mt mf t f j) as HD.
    set (D := spec_discount mt mf t f j) in *.
    set (A := spec_annuity mt mf t f j) in *.
    set (dt := knot mt t (S j) - knot mt t j).
    set (fj := rd mf (f + j)) in *.
    assert (Hdt : 0 < dt) by (unfold dt; lra).
    pose proof (exp_pos (- fj * dt)) as He.
    pose proof (exp_ineq1_le (fj * dt)) as HE.
    assert (HeE : exp (- fj * dt) * exp (fj * dt) = 1).
    { rewrite <- exp_plus. replace (- fj * dt + fj * dt) with 0 by ring. apply exp_0. }
    set (e := exp (- fj * dt)) in *. set (E := exp (fj * dt)) in *.
    assert (Hmdt : m * dt <= fj * dt) by (apply Rmult_le_compat_r; lra).
    assert (H1 : e * (1 + m * dt) <= 1).
    { rewrite <- HeE. apply Rmult_le_compat_l; lra. }
    assert (H2 : D * (e * (1 + m * dt)) <= D * 1) by (apply Rmult_le_compat_l; lra).
    lra.
Qed.

(** X13. On a curve of [n >= 1] buckets with a strictly increasing grid
    and forward rates that are all nonnegative, the par coupon is
    nonnegative. *)
Theorem par_coupon_nonnegative (n t f : nat) (s : state) :
  (1 <= n)%nat ->
  (t + n <= length (mem_t s))%nat ->
  (f + n <= length (mem_f s))%nat ->
  strictly_increasing (mem_t s) t n ->
  (forall i, (i < n)%nat -> 0 <= rd (mem_f s) (f + i)) ->
  exists c, par_coupon n t f s = Ok c s /\ 0 <= c.
Proof.
  intros Hn Ht Hf Hinc Hm.
  pose proof (spec_annuity_pos (mem_t s) (mem_f s) t f n Hinc Hn) as HA.
  pose proof (par_coupon_lower (mem_t s) (mem_f s) t f n 0 Hinc Hm n ltac:(lia)) as Hlow.
  rewrite Rmult_0_l in Hlow.
  eexists. split.
  - rewrite (par_coupon_run n t f s Ht Hf). apply divide_Ok. lra.
  - unfold Rdiv. apply Rmult_le_pos; [exact Hlow|].
    apply Rlt_le, Rinv_0_lt_compat, HA.
Qed.

Lemma par_coupon_nonnegative_witness :
  let s := State [1; 2; 4] [0.05; 0; 0.03] [] (fun _ => 0) 0 in
  exists c, par_coupon 3 0 0 s = Ok c s /\ 0 <= c.
Proof.
  intros s. apply (par_coupon_nonnegative 3 0 0 s).
  - lia.
  - cbn; lia.
  - cbn; lia.
  - intros [|[|[|j]]] Hj; cbn; try lra. lia.
  - intros [|[|[|i]]] Hi; cbn; try lra. lia.
Defined.

Lemma flat_discount (mt mf : list R) (t f n : nat) (r : R) :
  (forall i, (i < n)%nat -> rd mf (f + i) = r) ->
  forall j, (j <= n)%nat -> spec_discount mt mf t f j = exp (- r * knot mt t j).
Proof.
  intros Hflat. induction j as [|j IH]; intros Hj.
  - cbn [spec_discount knot]. rewrite Rmult_0_r, exp_0. reflexivity.
  - cbn [spec_discount]. rewrite IH, Hflat by lia. rewrite <- exp_plus.
    f_equal. ring.
Qed.

(** X14. On a flat forward curve at rate [r] ([n >= 1] buckets, strictly
    increasing grid) the discount factors telescope: [par_coupon] returns
    [(1 - exp(-r T)) / A], where [T = t[n-1]] is the last knot and [A] the
    annuity.  For [r = 0] the coupon is exactly 0. *)
Theorem par_coupon_flat (n t f : nat) (s : state) (r : R) :
  (1 <= n)%nat ->
  (t + n <= length (mem_t s))%nat ->
  (f + n <= length (mem_f s))%nat ->
  strictly_increasing (mem_t s) t n ->
  (forall i, (i < n)%nat -> rd (mem_f s) (f + i) = r) ->
  par_coupon n t f s
  = Ok ((1 - exp (- r * rd (mem_t s) (t + (n - 1))))
        / spec_annuity (mem_t s) (mem_f s) t f n) s /\
  (r = 0 -> par_coupon n t f s = Ok 0 s).
Proof.
  intros Hn Ht Hf Hinc Hflat.
  pose proof (spec_annuity_pos (mem_t s) (mem_f s) t f n Hinc Hn) as HA.
  assert (Hrun : par_coupon n t f s
                 = Ok ((1 - exp (- r * rd (mem_t s) (t + (n - 1))))
                       / spec_annuity (mem_t s) (mem_f s) t f n) s).
  { rewrite (par_coupon_run n t f s Ht Hf).
    rewrite (flat_discount (mem_t s) (mem_f s) t f n r Hflat n) by lia.
    destruct n as [|n']; [lia|]. cbn [knot].
    replace (S n' - 1)%nat with n' by lia.
    apply divide_Ok. lra. }
  split; [exact Hrun|].
  intros ->. rewrite Hrun. f_equal.
  rewrite Ropp_0, Rmult_0_l, exp_0. unfold Rdiv. ring.
Qed.

Lemma par_coupon_flat_witness :
  let s := State [1; 2; 4] [0.05; 0.05; 0.05] [] (fun _ => 0) 0 in
  par_coupon 3 0 0 s
  = Ok ((1 - exp (- (0.05) * rd (mem_t s) (0 + (3 - 1))))
        / spec_annuity (mem_t s) (mem_f s) 0 0 3) s.
Proof.
  intros s. refine (proj1 (par_coupon_flat 3 0 0 s 0.05 _ _ _ _ _)).
  - lia.
  - cbn; lia.
  - cbn; lia.
  - intros [|[|[|j]]] Hj; cbn; try lra. lia.
  - intros [|[|[|i]]] Hi; cbn; try reflexivity. lia.
Defined.

(** X15. A single bucket: with a nonzero knot time [t0] the par coupon is
    the simple rate [(exp(f0 t0) - 1) / t0] of the continuously compounded
    forward [f0]; with [t0 = 0] the annuity is zero and the division is a
    division by zero, although [n >= 1]. *)
Theorem par_coupon_single_bucket (t f : nat) (s : state) :
  (t < length (mem_t s))%nat ->
  (f < length (mem_f s))%nat ->
  let t0 := rd (mem_t s) t in
  let f0 := rd (mem_f s) f in
  (t0 <> 0 -> par_coupon 1 t f s = Ok ((exp (f0 * t0) - 1) / t0) s) /\
  (t0 = 0 -> par_coupon 1 t f s = Fault DivByZero).
Proof.
  intros Ht Hf t0 f0.
  rewrite (par_coupon_run 1 t f s) by lia.
  cbn [spec_discount spec_annuity knot]. rewrite !Nat.add_0_r. fold t0 f0.
  split.
  - intros Hne.
    pose proof (exp_pos (- f0 * (t0 - 0))) as He.
    assert (HeE : exp (- f0 * (t0 - 0)) * exp (f0 * t0) = 1).
    { rewrite <- exp_plus. replace (- f0 * (t0 - 0) + f0 * t0) with 0 by ring.
      apply exp_0. }
    set (e := exp (- f0 * (t0 - 0))) in *. set (E := exp (f0 * t0)) in *.
    rewrite divide_Ok.
    + f_equal. replace (1 - 1 * e) with (e * (E - 1)) by (rewrite Rmult_minus_distr_l, HeE; ring).
      field. split; lra.
    + replace (0 + 1 * e * (t0 - 0)) with (e * t0) by ring.
      apply Rmult_integral_contrapositive. split; lra.
  - intros H0. rewrite H0. unfold divide.
    destruct (Req_dec_T _ 0) as [_|Hne]; [reflexivity|].
    exfalso. apply Hne. ring.
Qed.

Lemma par_coupon_single_bucket_witness :
  let s := State [2] [0.05] [] (fun _ => 0) 0 in
  par_coupon 1 0 0 s = Ok ((exp (0.05 * 2) - 1) / 2) s.
Proof.
  intros s.
  apply (proj1 (par_coupon_single_bucket 0 0 s ltac:(cbn; lia) ltac:(cbn; lia))).
  cbn. lra.
Defined.

Lemma par_loop_state (k j t f : nat) (Dn D t0 : R) (s s' : state) (r : R * R) :
  par_loop k j t f Dn D t0 s = Ok r s' -> s' = s.
Proof.
  revert j Dn D t0. induction k as [|k IH]; intros j Dn D t0 H.
  - cbn in H. injection H as _ Hs. symmetry. exact Hs.
  - cbn [par_loop] in H. unfold mbind, M_bind, bind, load in H.
    destruct (mem_t s !! (t + j)%nat); [|discriminate].
    destruct (mem_f s !! (f + j)%nat); [|discriminate].
    exact (IH _ _ _ _ H).
Qed.

(** X16. [par_coupon] only reads: a call that returns a coupon returns the
    state it was given, and its value or fault depends on the knot times
    and the rates alone, not on the volatilities or the random source. *)
Theorem par_coupon_reads_only (n t f : nat) (s : state) :
  (forall c s', par_coupon n t f s = Ok c s' -> s' = s) /\
  (forall ms vs cur,
     outcome (par_coupon n t f (State (mem_t s) (mem_f s) ms vs cur))
     = outcome (par_coupon n t f s)).
Proof.
  split.
  - intros c s' H. unfold par_coupon in H. cbn zeta in H.
    unfold mbind, M_bind, bind in H.
    destruct (par_loop n 0 t f 1 0 0 s) as [r s1|e] eqn:Hl; [|discriminate].
    apply par_loop_state in Hl. subst s1.
    unfold divide in H. destruct (Req_dec_T (snd r) 0); [discriminate|].
    injection H as _ Hs. symmetry. exact Hs.
  - intros ms vs cur. apply par_coupon_frame; reflexivity.
Qed.

(** ** Pricing what [advance] returns *)

(** X17. Advancing a curve past its last knot and pricing what comes back
    is a division by zero: when every knot is [<= u], [advance] succeeds
    and returns the empty view, on which [par_coupon] faults. *)
Theorem advance_all_matured_then_price (u : R) (n t f sigma : nat) (alpha : R)
    (s : state) :
  in_bounds n t f sigma s ->
  (forall j, (j < n)%nat -> rd (mem_t s) (t + j) <= u) ->
  exists v s',
    advance u n t f sigma alpha s = Ok v s' /\
    v_n v = 0%nat /\
    par_coupon (v_n v) (v_t v) (v_f v) s' = Fault DivByZero.
Proof.
  intros Hb Hm.
  destruct (to_futures_run n t f sigma s Hb) as (s1 & Hrun1 & Hup1).
  pose proof (buckets_updated_same_t _ _ _ _ _ _ _ _ Hup1) as Ht1.
  assert (Hb1 : in_bounds n t f sigma s1).
  { apply (in_bounds_lengths n t f sigma s); [apply Hup1 .. | exact Hb]. }
  destruct (advance_futures_run u n t f sigma alpha s1 Hb1) as (k & s2 & Hrun2 & Hadv).
  assert (k = n) as ->.
  { apply (drop_count_unique _ _ _ _ _ _ _ _ _ _ Hadv); [lia | | lia].
    intros j Hj. rewrite Ht1. apply Hm, Hj. }
  rewrite Nat.sub_diag in Hrun2.
  exists (View 0 (t + n) (f + n) (sigma + n)), s2. split; [|split].
  - unfold advance.
    rewrite (bind_Ok _ _ _ _ _ Hrun1), (bind_Ok _ _ _ _ _ Hrun2). reflexivity.
  - reflexivity.
  - cbn [v_n v_t v_f]. unfold par_coupon. cbn zeta.
    rewrite (bind_Ok _ _ s2 s2 (1, 0) eq_refl). cbn [fst snd].
    unfold divide. destruct (Req_dec_T 0 0) as [_|Hne]; [reflexivity | contradiction].
Qed.

Lemma advance_all_matured_then_price_witness :
  let s := State [1; 2] [0.05; 0.04] [0.2; 0.3] (fun _ => 1) 0 in
  exists v s',
    advance 2 2 0 0 0 0.1 s = Ok v s' /\
    v_n v = 0%nat /\
    par_coupon (v_n v) (v_t v) (v_f v) s' = Fault DivByZero.
Proof.
  intros s. apply (advance_all_matured_then_price 2 2 0 0 0 0.1 s).
  - unfold in_bounds; cbn; lia.
  - intros [|[|j]] Hj; cbn; try lra. lia.
Defined.

Lemma par_coupon_reads_only_witness :
  outcome (par_coupon 1 0 0 (State [2] [0.05] [0.3] (fun _ => 1) 7))
  = outcome (par_coupon 1 0 0 (State [2] [0.05] [] (fun _ => 0) 0)).
Proof.
  exact (proj2 (par_coupon_reads_only 1 0 0 (State [2] [0.05] [] (fun _ => 0) 0))
           [0.3] (fun _ => 1) 7%nat).
Defined.

(** ** More on runs in which no time elapses *)

(** X18. With [u = 0] and strictly positive knot times [advance_futures]
    drops nothing, returns the view it was given and leaves every knot time
    as it was, but it still evolves the rates: bucket [i] is multiplied by
    [exp(sigma[i] * (B0 cos(alpha t[i]) + B1 sin(alpha t[i])))], the decay
    term alone having vanished. *)
Theorem advance_futures_zero_time (n t phi sigma : nat) (alpha : R) (s : state) :
  in_bounds n t phi sigma s ->
  (forall i, (i < n)%nat -> 0 < rd (mem_t s) (t + i)) ->
  exists s',
    advance_futures 0 n t phi sigma alpha s = Ok (View n t phi sigma) s' /\
    mem_t s' = mem_t s /\
    forall i, (i < n)%nat ->
      let ti := rd (mem_t s) (t + i) in
      let si := rd (mem_sigma s) (sigma + i) in
      let B0 := variates s (cursor s) in
      let B1 := variates s (S (cursor s)) in
      rd (mem_f s') (phi + i)
      = rd (mem_f s) (phi + i)
        * exp (si * (B0 * cos (alpha * ti) + B1 * sin (alpha * ti))).
Proof.
  intros Hb Hpos.
  destruct (advance_futures_at_zero n t phi sigma alpha s Hb Hpos)
    as (s' & Hrun & Ht & _ & _ & _ & _ & Hf).
  exists s'. split; [exact Hrun|]. split; [exact Ht|].
  intros i Hi. cbn zeta. rewrite Hf, decide_True by lia.
  replace (phi + i - phi)%nat with i by lia. reflexivity.
Qed.

Lemma advance_futures_zero_time_witness :
  let s := State [1; 2] [0.05; 0.04] [0.2; 0.3] (fun _ => 1) 0 in
  exists s',
    advance_futures 0 2 0 0 0 0.1 s = Ok (View 2 0 0 0) s' /\
    mem_t s' = mem_t s.
Proof.
  intros s.
  destruct (advance_futures_zero_time 2 0 0 0 0.1 s) as (s' & Hrun & Ht & _).
  - unfold in_bounds; cbn; lia.
  - intros [|[|i]] Hi; cbn; try lra. lia.
  - exists s'. split; [exact Hrun | exact Ht].
Defined.

(** X19. Advancing further never leaves more buckets: for [u <= u'] the
    count [advance_futures] returns at [u'] is at most the count it returns
    at [u], on the same curve, whatever the order of the grid. *)
Theorem advance_futures_count_antitone (u u' : R) (n t phi sigma : nat)
    (alpha : R) (s : state) :
  in_bounds n t phi sigma s ->
  u <= u' ->
  exists v s1 v' s1',
    advance_futures u n t phi sigma alpha s = Ok v s1 /\
    advance_futures u' n t phi sigma alpha s = Ok v' s1' /\
    (v_n v' <= v_n v)%nat.
Proof.
  intros Hb Hu.
  destruct (advance_futures_run u n t phi sigma alpha s Hb) as (k & s1 & Hrun & Hadv).
  destruct (advance_futures_run u' n t phi sigma alpha s Hb) as (k' & s1' & Hrun' & Hadv').
  eexists _, s1, _, s1'. split; [exact Hrun|]. split; [exact Hrun'|].
  cbn [v_n].
  pose proof (adv_le _ _ _ _ _ _ _ _ _ Hadv) as Hle.
  pose proof (adv_le _ _ _ _ _ _ _ _ _ Hadv') as Hle'.
  destruct (decide (k <= k')%nat) as [Hkk|Hkk]; [lia | exfalso].
  pose proof (adv_matured _ _ _ _ _ _ _ _ _ Hadv k' ltac:(lia)) as Hm.
  pose proof (adv_alive _ _ _ _ _ _ _ _ _ Hadv' ltac:(lia)) as Ha.
  lra.
Qed.

Lemma advance_futures_count_antitone_witness :
  let s := State [1; 2; 3] [0.05; 0.04; 0.03] [0.2; 0.3; 0.1] (fun _ => 1) 0 in
  exists v s1 v' s1',
    advance_futures 0.5 3 0 0 0 0.1 s = Ok v s1 /\
    advance_futures 2.5 3 0 0 0 0.1 s = Ok v' s1' /\
    (v_n v' <= v_n v)%nat.
Proof.
  intros s. apply (advance_futures_count_antitone 0.5 2.5 3 0 0 0 0.1 s).
  - unfold in_bounds; cbn; lia.
  - lra.
Defined.
